(** * route66: pattern compiler, conflict checker, route table and dispatcher

    A shallow embedding of [mod.ts] (classes [RouterItem], [RouterContext],
    [Router], functions [readBodyAsText], [readBodyAsJSON], [bodyJSON]) and
    the properties of the routing engine stated over it.

    Conventions of the embedding.
    - A JavaScript string is a [string]: a sequence of 8-bit code units.  The
      router only ever inspects the code units [/], [:] and [*], compares
      strings for equality, and upper-cases the request method.
    - [s.indexOf(c)] and [s.lastIndexOf(c)] return a [Z], with [-1] for
      "absent", as in the source.
    - A value of type [string | undefined] (the result of [parts[i]]) is a
      [JsStr].
    - [Record<string, string>] is a [gmap string JsStr] holding the own
      properties of the object.
    - [throw] is the [Throw] constructor of [Result]; the thrown values are
      [JsError]s whose message is the one built in the source. *)

From Stdlib Require Import ZArith Ascii String.
From stdpp Require Import base option list gmap strings.

Local Open Scope Z_scope.

(** ** Results of code that may throw *)

Inductive Result (E A : Type) : Type :=
| Ok (a : A)
| Throw (e : E).
Arguments Ok {E A} a.
Arguments Throw {E A} e.

#[export] Instance Result_ret {E} : MRet (Result E) := fun A a => Ok a.
#[export] Instance Result_bind {E} : MBind (Result E) := fun A B k r =>
  match r with
  | Ok a => k a
  | Throw e => Throw e
  end.

(** ** JavaScript string primitives used by the router *)

Module JSString.

Definition slash : ascii := ascii_of_nat 47.
Definition colon : ascii := ascii_of_nat 58.
Definition star : ascii := ascii_of_nat 42.
Definition dquote : ascii := ascii_of_nat 34.

(** [s.includes(c)] for a one-character needle. *)
Fixpoint includes (c : ascii) (s : string) : bool :=
  match s with
  | EmptyString => false
  | String x r => if Ascii.eqb x c then true else includes c r
  end.

(** [s.indexOf(c)]: index of the first occurrence, [-1] when absent. *)
Fixpoint indexOf (c : ascii) (s : string) : Z :=
  match s with
  | EmptyString => -1
  | String x r =>
      if Ascii.eqb x c then 0
      else let k := indexOf c r in if k <? 0 then -1 else 1 + k
  end.

(** [s.lastIndexOf(c)]: index of the last occurrence, [-1] when absent. *)
Fixpoint lastIndexOf (c : ascii) (s : string) : Z :=
  match s with
  | EmptyString => -1
  | String x r =>
      let k := lastIndexOf c r in
      if 0 <=? k then 1 + k
      else if Ascii.eqb x c then 0 else -1
  end.

(** [s.split(c)]: the pieces between the separators; never empty. *)
Fixpoint split (sep : ascii) (s : string) : list string :=
  match s with
  | EmptyString => [EmptyString]
  | String x r =>
      if Ascii.eqb x sep then EmptyString :: split sep r
      else match split sep r with
           | [] => [String x EmptyString]
           | p :: ps => String x p :: ps
           end
  end.

(** [!!s]: a string is truthy iff it is not empty. *)
Definition truthy (s : string) : bool :=
  match s with
  | EmptyString => false
  | String _ _ => true
  end.

(** [s.split('/').filter(i => !!i)] *)
Definition segments (s : string) : list string :=
  filter (fun i => Is_true (truthy i)) (split slash s).

(** [s.slice(1)] *)
Definition slice1 (s : string) : string :=
  match s with
  | EmptyString => EmptyString
  | String _ r => r
  end.

(** [l.join(c)] *)
Fixpoint join (sep : ascii) (l : list string) : string :=
  match l with
  | [] => EmptyString
  | [s] => s
  | s :: rest => s +:+ String sep (join sep rest)
  end.

(** [s.toUpperCase()] on 8-bit code units: [a]..[z] go to [A]..[Z]. *)
Definition upper_char (c : ascii) : ascii :=
  let n := nat_of_ascii c in
  if (Nat.leb 97 n && Nat.leb n 122)%bool then ascii_of_nat (n - 32) else c.

Fixpoint toUpperCase (s : string) : string :=
  match s with
  | EmptyString => EmptyString
  | String x r => String (upper_char x) (toUpperCase r)
  end.

(** [`"${s}"`] *)
Definition quoted (s : string) : string :=
  String dquote (s +:+ String dquote EmptyString).

End JSString.

(** A value of TypeScript type [string] read from an array by index:
    [Undefined] when the index is out of range. *)
Inductive JsStr : Type :=
| Str (s : string)
| Undefined.

Definition JsStr_eqb (a b : JsStr) : bool :=
  match a, b with
  | Str x, Str y => String.eqb x y
  | Undefined, Undefined => true
  | _, _ => false
  end.

(** [parts[i]] *)
Definition js_index (parts : list string) (i : nat) : JsStr :=
  match parts !! i with
  | Some s => Str s
  | None => Undefined
  end.

(** [obj[k] = v] on an object created by [{}], whose own properties are the
    map. *)
Definition js_set (k : string) (v : JsStr) (obj : gmap string JsStr)
  : gmap string JsStr :=
  <[k := v]> obj.

(** ** Errors thrown by the library *)

Inductive JsError (X : Type) : Type :=
| Error (message : string)
| JSONParseError (message : string)
| UnsupportedMediaTypeError (message : string)
| Foreign (x : X).
Arguments Error {X} message.
Arguments JSONParseError {X} message.
Arguments UnsupportedMediaTypeError {X} message.
Arguments Foreign {X} x.

(** ** [RouterItem]: a compiled route *)

Inductive RouterMethod : Type := GET | POST | PATCH | DELETE | OPTIONS.

Definition method_string (m : RouterMethod) : string :=
  match m with
  | GET => "GET"
  | POST => "POST"
  | PATCH => "PATCH"
  | DELETE => "DELETE"
  | OPTIONS => "OPTIONS"
  end.

Definition RouterMethod_eqb (a b : RouterMethod) : bool :=
  match a, b with
  | GET, GET | POST, POST | PATCH, PATCH
  | DELETE, DELETE | OPTIONS, OPTIONS => true
  | _, _ => false
  end.

Record RouterItemPart : Type := mkPart { name : string; param : bool }.

Record RouterItem (H : Type) : Type := mkItem {
  _method : RouterMethod;
  _pattern : string;
  _handlers : list H;
  _parts : list RouterItemPart;
  _variadic : bool
}.
Arguments mkItem {H}.
Arguments _method {H}.
Arguments _pattern {H}.
Arguments _handlers {H}.
Arguments _parts {H}.
Arguments _variadic {H}.

Section RouterItem.
Context {H X : Type}.
Import JSString.

Definition wrong_pattern (pattern : string) : JsError X :=
  Error ("wrong pattern " +:+ quoted pattern).

(** Body of the [for (const part of ...)] loop of the constructor: the
    part pushed for one piece, or the error thrown. *)
Definition compile_part (pattern part : string)
  : Result (JsError X) RouterItemPart :=
  if includes colon part then
    if ((indexOf colon part =? 0) && (lastIndexOf colon part =? 0))%bool
    then Ok (mkPart (slice1 part) true)
    else Throw (wrong_pattern pattern)
  else if includes star part then
    if Nat.eqb (String.length part) 1
    then Ok (mkPart "*" true)
    else Throw (wrong_pattern pattern)
  else Ok (mkPart part false).

(** The loop: pieces are compiled in order, parts are pushed at the end of
    [acc], the first error aborts. *)
Fixpoint compile_parts (pattern : string) (pieces : list string)
    (acc : list RouterItemPart) : Result (JsError X) (list RouterItemPart) :=
  match pieces with
  | [] => Ok acc
  | part :: rest =>
      p ← compile_part pattern part;
      compile_parts pattern rest (acc ++ [p])
  end.

(** [new RouterItem(method, pattern, head, ...tail)] *)
Definition RouterItem_new (method : RouterMethod) (pattern : string)
    (head : H) (tail : list H) : Result (JsError X) (RouterItem H) :=
  if Nat.eqb (String.length pattern) 0 then
    Throw (Error "pattern length must be greater than 0")
  else if negb (indexOf star pattern =? lastIndexOf star pattern) then
    Throw (wrong_pattern pattern)
  else
    parts ← compile_parts pattern (segments pattern) [];
    Ok (mkItem method pattern (head :: tail) parts (includes star pattern)).

(** The [for] loop of [conflicts], from index [i], with [n] iterations
    left before [i] reaches [Math.max(...)]. *)
Fixpoint conflicts_loop (lparts rparts : list RouterItemPart)
    (i n : nat) : bool :=
  match n with
  | O => true
  | S n' =>
      match lparts !! i, rparts !! i with
      | Some lpart, Some rpart =>
          if (String.eqb (name lpart) "*" || String.eqb (name rpart) "*")%bool
          then true
          else if (param lpart || param rpart)%bool
          then conflicts_loop lparts rparts (S i) n'
          else if negb (String.eqb (name lpart) (name rpart))
          then false
          else conflicts_loop lparts rparts (S i) n'
      | _, _ => false
      end
  end.

(** [this.conflicts(item)] *)
Definition conflicts (this item : RouterItem H) : bool :=
  if negb (RouterMethod_eqb (_method this) (_method item)) then false
  else conflicts_loop (_parts this) (_parts item) 0
         (Nat.max (length (_parts this)) (length (_parts item))).

Record MatchResult : Type := mkMatch {
  matches_ok : bool;
  params : gmap string JsStr
}.

(** The [for] loop of [matches]: [rest] holds [this._parts[i..]], so its
    head is [this._parts[i]]; the loop ends when [i] reaches
    [this._parts.length]. *)
Fixpoint matches_loop (rest : list RouterItemPart) (parts : list string)
    (i : nat) (params : gmap string JsStr) : MatchResult :=
  match rest with
  | [] => mkMatch true params
  | lpart :: rest' =>
      let rpart := js_index parts i in
      if param lpart then
        if String.eqb (name lpart) "*" then
          matches_loop rest' parts (S i)
            (js_set (name lpart) (Str (join slash (drop i parts))) params)
        else
          matches_loop rest' parts (S i) (js_set (name lpart) rpart params)
      else
        if negb (JsStr_eqb (Str (name lpart)) rpart)
        then mkMatch false ∅
        else matches_loop rest' parts (S i) params
  end.

(** [this.matches(method, parts)] *)
Definition matches (this : RouterItem H) (method : string)
    (parts : list string) : MatchResult :=
  if String.eqb (toUpperCase method) (method_string (_method this)) then
    if (Nat.eqb (length (_parts this)) (length parts) && negb (_variadic this)
        || Nat.leb (length (_parts this)) (length parts) && _variadic this)%bool
    then matches_loop (_parts this) parts 0 ∅
    else mkMatch false ∅
  else mkMatch false ∅.

End RouterItem.

(** ** [RouterContext], handlers and [Router] *)

(** How an awaited call ends: the promise is fulfilled with a value, it is
    rejected (or the call throws), or it never settles. *)
Inductive Promise (E A : Type) : Type :=
| Fulfilled (a : A)
| Rejected (e : E)
| Pending.
Arguments Fulfilled {E A} a.
Arguments Rejected {E A} e.
Arguments Pending {E A}.

(** The part of a [ServerRequest] the library reads and never writes.  What
    the library writes on the request object (the cached [__bodytext] and
    [__bodyjson], the responses sent) is state of the world. *)
Record ServerRequest : Type := mkReq {
  method : string;
  url : string;
  headers_get : string → option string
}.

(** A [RouterContext] has three private fields and getters only; [req] and
    [props] are references to objects whose state lives in the world. *)
Record RouterContext (T : Type) : Type := mkContext {
  req : ServerRequest;
  props : T;
  ctx_params : gmap string JsStr
}.
Arguments mkContext {T}.
Arguments req {T}.
Arguments props {T}.
Arguments ctx_params {T}.

(** A [RouterHandler<T>] run to the point where [await handler(context, next)]
    resumes: the world it leaves, and whether the promise was fulfilled
    (with the value the flag [next] has at that moment), rejected, or never
    settled. *)
Definition RouterHandler (T W X : Type) : Type :=
  RouterContext T → W → W * Promise (JsError X) bool.

(** One handler call, as recorded while the dispatcher runs: the index of
    the route in the table, of the handler in its chain, and the context
    passed. *)
Record Invocation (T : Type) : Type := mkInv {
  inv_route : nat;
  inv_handler : nat;
  inv_context : RouterContext T
}.
Arguments mkInv {T}.
Arguments inv_route {T}.
Arguments inv_handler {T}.
Arguments inv_context {T}.

(** How the handler loop of [process] ends. *)
Inductive ChainEnd (X : Type) : Type :=
| Completed
| Stopped
| Threw (e : JsError X)
| Hung.
Arguments Completed {X}.
Arguments Stopped {X}.
Arguments Threw {X} e.
Arguments Hung {X}.

Section Router.
Context {T W X : Type}.
Import JSString.

Abbreviation Handler := (RouterHandler T W X).
Abbreviation Item := (RouterItem Handler).

Record Router : Type := mkRouter { _routes : list Item }.

Definition conflict_error (item i : Item) : JsError X :=
  Error ("pattern " +:+ quoted (_pattern item)
         +:+ " conflicts with previously added pattern "
         +:+ quoted (_pattern i)).

(** The [for (const i of this._routes)] loop of [_add]. *)
Fixpoint check_conflicts (item : Item) (routes : list Item)
  : Result (JsError X) unit :=
  match routes with
  | [] => Ok tt
  | i :: rest =>
      if conflicts item i then Throw (conflict_error item i)
      else check_conflicts item rest
  end.

(** [this._add(method, pattern, head, ...tail)]: what the call returns or
    throws, and the router it leaves. *)
Definition _add (method : RouterMethod) (pattern : string)
    (head : Handler) (tail : list Handler) (this : Router)
  : Result (JsError X) unit * Router :=
  match RouterItem_new method pattern head tail with
  | Throw e => (Throw e, this)
  | Ok item =>
      match check_conflicts item (_routes this) with
      | Throw e => (Throw e, this)
      | Ok _ => (Ok tt, mkRouter (_routes this ++ [item]))
      end
  end.

Definition Router_GET := _add GET.
Definition Router_POST := _add POST.
Definition Router_PATCH := _add PATCH.
Definition Router_DELETE := _add DELETE.
Definition Router_OPTIONS := _add OPTIONS.

(** [new URL(req.url, 'http://whatever').pathname]: the host's URL parser,
    which throws on a string it cannot parse. *)
Variable URL_pathname : string → Result (JsError X) string.

(** The [for (const handler of route.handlers)] loop of [process], for
    the route at index [ri], from the handler at index [hi]. *)
Fixpoint run_handlers (ri hi : nat) (handlers : list Handler)
    (context : RouterContext T) (w : W)
  : W * list (Invocation T) * ChainEnd X :=
  match handlers with
  | [] => (w, [], Completed)
  | handler :: rest =>
      let '(w1, settled) := handler context w in
      let inv := mkInv ri hi context in
      match settled with
      | Fulfilled next =>
          if negb next then (w1, [inv], Stopped)
          else
            let '(w2, log, e) := run_handlers ri (S hi) rest context w1 in
            (w2, inv :: log, e)
      | Rejected e => (w1, [inv], Threw e)
      | Pending => (w1, [inv], Hung)
      end
  end.

(** What [process] returns once the handler loop has ended: [return true]
    follows the loop; a handler that throws or never settles leaves the
    promise of [process] rejected or pending. *)
Definition after_chain (e : ChainEnd X) : Promise (JsError X) bool :=
  match e with
  | Completed | Stopped => Fulfilled true
  | Threw err => Rejected err
  | Hung => Pending
  end.

(** The [for (const route of this._routes)] loop of [process], from the
    route at index [ri]. *)
Fixpoint process_routes (ri : nat) (routes : list Item)
    (r : ServerRequest) (p : T) (parts : list string) (w : W)
  : W * list (Invocation T) * Promise (JsError X) bool :=
  match routes with
  | [] => (w, [], Fulfilled false)
  | route :: rest =>
      let res := matches route (method r) parts in
      if matches_ok res then
        let context := mkContext r p (params res) in
        let '(w', log, e) := run_handlers ri 0 (_handlers route) context w in
        (w', log, after_chain e)
      else process_routes (S ri) rest r p parts w
  end.

(** [this.process(req, props)] *)
Definition process (this : Router) (r : ServerRequest) (p : T) (w : W)
  : W * list (Invocation T) * Promise (JsError X) bool :=
  match URL_pathname (url r) with
  | Throw e => (w, [], Rejected e)
  | Ok pathname =>
      process_routes 0 (_routes this) r p (segments pathname) w
  end.

End Router.

(** ** Body decoding: [readBodyAsText], [readBodyAsJSON], [bodyJSON] *)

(** The value [readBodyAsJSON] yields: what [JSON.parse] built, or the
    [Record<string, string>] that [paramsToObject] built. *)
Inductive BodyValue (Json : Type) : Type :=
| Parsed (j : Json)
| Form (r : gmap string JsStr).
Arguments Parsed {Json} j.
Arguments Form {Json} r.

(** [{ status: n }] passed to [req.respond]. *)
Record Response : Type := mkResponse { status : nat }.

(** The mutable objects a handler reaches from its context.
    - [wire_body]: how [await Deno.readAll(req.body)], decoded as text, ends;
      a body that was read leaves an exhausted stream behind.
    - [__bodytext], [__bodyjson]: the properties cached on the request
      object ([None] when [hasOwnProperty] is false).
    - [responses]: the arguments of the [req.respond] calls so far.
    - [objects]: the own properties of each props object; [context.props]
      is a reference into it, so every holder of the reference sees what a
      handler stores. *)
Record World (X Json : Type) : Type := mkWorld {
  wire_body : Promise (JsError X) string;
  __bodytext : option string;
  __bodyjson : option (BodyValue Json);
  responses : list Response;
  objects : nat → gmap string (BodyValue Json)
}.
Arguments mkWorld {X Json}.
Arguments wire_body {X Json}.
Arguments __bodytext {X Json}.
Arguments __bodyjson {X Json}.
Arguments responses {X Json}.
Arguments objects {X Json}.

Section Body.
Context {X Json : Type}.
Import JSString.

Abbreviation world := (World X Json).

(** [JSON.parse(text)]: the value, or the message of the error thrown. *)
Variable JSON_parse : string → Result string Json.

(** [decodeURIComponent(text)]: the decoded text, or the [URIError] thrown. *)
Variable decodeURIComponent : string → Result X string.

(** [paramsToObject(params, sep)] for a one-character separator. *)
Definition paramsToObject (params : string) (sep : ascii)
  : gmap string JsStr :=
  foldl (fun ret pair =>
           let kv := split (ascii_of_nat 61) pair in
           match kv with
           | [] => ret
           | key :: _ => js_set key (js_index kv 1) ret
           end)
        ∅ (split sep params).

(** [await readBodyAsText(req)] *)
Definition readBodyAsText (w : world) : world * Promise (JsError X) string :=
  match __bodytext w with
  | Some text => (w, Fulfilled text)
  | None =>
      match wire_body w with
      | Fulfilled text =>
          (mkWorld (Fulfilled EmptyString) (Some text) (__bodyjson w)
                   (responses w) (objects w),
           Fulfilled text)
      | Rejected e => (w, Rejected e)
      | Pending => (w, Pending)
      end
  end.

Definition set_bodyjson (v : BodyValue Json) (w : world) : world :=
  mkWorld (wire_body w) (__bodytext w) (Some v) (responses w) (objects w).

(** [`content type "${type}" not supported`], [type] being a string or
    [null]. *)
Definition not_supported (type : option string) : string :=
  "content type " +:+ quoted (default "null" type) +:+ " not supported".

(** [await readBodyAsJSON(req)] *)
Definition readBodyAsJSON (r : ServerRequest) (w : world)
  : world * Promise (JsError X) (BodyValue Json) :=
  match __bodyjson w with
  | Some v => (w, Fulfilled v)
  | None =>
      let '(w1, t) := readBodyAsText w in
      match t with
      | Rejected e => (w1, Rejected e)
      | Pending => (w1, Pending)
      | Fulfilled text =>
          let type := headers_get r "Content-Type" in
          if bool_decide (type = Some "application/json") then
            match JSON_parse text with
            | Ok j => (set_bodyjson (Parsed j) w1, Fulfilled (Parsed j))
            | Throw message => (w1, Rejected (JSONParseError message))
            end
          else if bool_decide (type = Some "application/x-www-form-urlencoded")
          then
            match decodeURIComponent text with
            | Ok decoded =>
                let v := Form (paramsToObject decoded (ascii_of_nat 38)) in
                (set_bodyjson v w1, Fulfilled v)
            | Throw x => (w1, Rejected (Foreign x))
            end
          else (w1, Rejected (UnsupportedMediaTypeError (not_supported type)))
      end
  end.

(** [context.req.respond({ status })]: the call is recorded; whether the
    host manages to write it is reported to [onerror], after the handler
    has returned. *)
Definition respond (st : nat) (w : world) : world :=
  mkWorld (wire_body w) (__bodytext w) (__bodyjson w)
          (responses w ++ [mkResponse st]) (objects w).

(** [context.props[key] = v], [T] being an object type and [key] one of
    its keys. *)
Definition set_prop (ref : nat) (key : string) (v : BodyValue Json)
    (w : world) : world :=
  mkWorld (wire_body w) (__bodytext w) (__bodyjson w) (responses w)
          (fun l => if Nat.eqb l ref then <[key := v]> (objects w l)
                    else objects w l).

(** [bodyJSON(key, onerror)]: the handler it returns. *)
Definition bodyJSON (key : string) : RouterHandler nat world X :=
  fun context w =>
    let '(w1, r) := readBodyAsJSON (req context) w in
    match r with
    | Fulfilled v => (set_prop (props context) key v w1, Fulfilled true)
    | Rejected e =>
        match e with
        | UnsupportedMediaTypeError _ => (respond 415 w1, Fulfilled false)
        | JSONParseError _ => (respond 400 w1, Fulfilled false)
        | _ => (respond 500 w1, Fulfilled false)
        end
    | Pending => (w1, Pending)
    end.

End Body.

(** ** Memoized request readers: [getPath], [getSearch], [getHash],
    [getCookie] *)

(** What the readers use of a [URL] object. *)
Record URLRecord : Type := mkURL {
  url_pathname : string;
  url_search : string;
  url_hash : string
}.

(** The properties the readers cache on the request object ([None] when
    [hasOwnProperty] is false). *)
Record Memo : Type := mkMemo {
  __url : option URLRecord;
  __path : option string;
  __search : option (gmap string JsStr);
  __hash : option (gmap string JsStr);
  __cookie : option (gmap string JsStr)
}.

(** [s.replace(c, '')] for a one-character pattern: the first occurrence
    goes. *)
Fixpoint remove_first (c : ascii) (s : string) : string :=
  match s with
  | EmptyString => EmptyString
  | String x r => if Ascii.eqb x c then r else String x (remove_first c r)
  end.

Section Readers.
Context {X : Type}.

(** [new URL(req.url, 'http://whatever')]: the host's URL parser. *)
Variable URL_new : string → Result (JsError X) URLRecord.

(** [if (!__req.hasOwnProperty('__url')) { __req.__url = new URL(...) }],
    then [__req.__url]. *)
Definition ensure_url (r : ServerRequest) (d : Memo)
  : Result (JsError X) URLRecord * Memo :=
  match __url d with
  | Some u => (Ok u, d)
  | None =>
      match URL_new (url r) with
      | Ok u =>
          (Ok u, mkMemo (Some u) (__path d) (__search d) (__hash d)
                   (__cookie d))
      | Throw e => (Throw e, d)
      end
  end.

(** [getPath(req)] *)
Definition getPath (r : ServerRequest) (d : Memo)
  : Result (JsError X) string * Memo :=
  match __path d with
  | Some path => (Ok path, d)
  | None =>
      match ensure_url r d with
      | (Ok u, d1) =>
          (Ok (url_pathname u),
           mkMemo (__url d1) (Some (url_pathname u)) (__search d1)
             (__hash d1) (__cookie d1))
      | (Throw e, d1) => (Throw e, d1)
      end
  end.

(** [getSearch(req)] *)
Definition getSearch (r : ServerRequest) (d : Memo)
  : Result (JsError X) (gmap string JsStr) * Memo :=
  match __search d with
  | Some v => (Ok v, d)
  | None =>
      match ensure_url r d with
      | (Ok u, d1) =>
          let v := paramsToObject (remove_first (ascii_of_nat 63)
                                     (url_search u)) (ascii_of_nat 38) in
          (Ok v, mkMemo (__url d1) (__path d1) (Some v) (__hash d1)
                   (__cookie d1))
      | (Throw e, d1) => (Throw e, d1)
      end
  end.

(** [getHash(req)] *)
Definition getHash (r : ServerRequest) (d : Memo)
  : Result (JsError X) (gmap string JsStr) * Memo :=
  match __hash d with
  | Some v => (Ok v, d)
  | None =>
      match ensure_url r d with
      | (Ok u, d1) =>
          let v := paramsToObject (remove_first (ascii_of_nat 35)
                                     (url_hash u)) (ascii_of_nat 38) in
          (Ok v, mkMemo (__url d1) (__path d1) (__search d1) (Some v)
                   (__cookie d1))
      | (Throw e, d1) => (Throw e, d1)
      end
  end.

End Readers.


(** ** [respondFile] *)

(** The table [MIMETYPE]. *)
Definition MIMETYPE : list (string * string) :=
  [(".md", "text/markdown"); (".html", "text/html"); (".htm", "text/html");
   (".json", "application/json"); (".map", "application/json");
   (".txt", "text/plain"); (".ts", "text/typescript"); (".tsx", "text/tsx");
   (".js", "application/javascript"); (".jsx", "text/jsx");
   (".gz", "application/gzip"); (".css", "text/css");
   (".wasm", "application/wasm"); (".mjs", "application/javascript")].

(** [MIMETYPE[ext]], [ext] being the empty string or a string that starts
    with a dot, as [Path.extname] returns them. *)
Fixpoint table_get (table : list (string * string)) (key : string)
  : option string :=
  match table with
  | [] => None
  | (k, v) :: rest => if String.eqb k key then Some v else table_get rest key
  end.

(** [s.startsWith(needle)] and [s.includes(needle)] for a string needle. *)
Fixpoint starts_with (needle s : string) : bool :=
  match needle, s with
  | EmptyString, _ => true
  | String _ _, EmptyString => false
  | String a n, String b r => (Ascii.eqb a b && starts_with n r)%bool
  end.

Fixpoint includes_string (needle s : string) : bool :=
  (starts_with needle s
   || match s with
      | EmptyString => false
      | String _ r => includes_string needle r
      end)%bool.

(** The argument of [req.respond]: status, body (a file handle) and
    headers, each possibly absent. *)
Record FileResponse : Type := mkFileResponse {
  fr_status : option nat;
  fr_body : option nat;
  fr_headers : option (list (string * string))
}.

(** [options?: { status?: number, headers?: Record<string, string> }],
    the headers as [Object.entries] lists them. *)
Record FileOptions : Type := mkFileOptions {
  opt_status : option nat;
  opt_headers : option (list (string * string))
}.

(** What [respondFile] does to its surroundings: the responses handed to
    [req.respond], the file handles opened and the file handles closed, in
    order. *)
Record FileWorld : Type := mkFileWorld {
  sent : list FileResponse;
  opened : list nat;
  closed : list nat
}.

Section RespondFile.
Context {X : Type}.

(** The host: [FS.existsSync], [Deno.statSync(path).size.toString()],
    [Deno.openSync(path, { read: true })], [Path.extname],
    [new Headers(list)], and how the promise of [req.respond] settles. *)
Variable existsSync : string → bool.
Variable stat_size : string → Result (JsError X) string.
Variable openSync : string → Result (JsError X) nat.
Variable extname : string → string.
Variable new_Headers :
  list (string * string) → Result (JsError X) (list (string * string)).
Variable respond_settles : FileResponse → Promise (JsError X) unit.

Definition file_respond (resp : FileResponse) (w : FileWorld)
  : FileWorld * Promise (JsError X) unit :=
  (mkFileWorld (sent w ++ [resp]) (opened w) (closed w), respond_settles resp).

Definition not_found : FileResponse := mkFileResponse (Some 404%nat) None None.

(** [options?.status ?? 200] and [Object.entries(options?.headers ?? {})] *)
Definition status_of (options : option FileOptions) : nat :=
  default 200%nat (options ≫= opt_status).

Definition entries_of (options : option FileOptions)
  : list (string * string) :=
  default [] (options ≫= opt_headers).

(** [await respondFile(req, path, options)] *)
Definition respondFile (path : string) (options : option FileOptions)
    (w : FileWorld) : FileWorld * Promise (JsError X) unit :=
  if (includes_string "../" path || includes_string "./" path)%bool then
    file_respond not_found w
  else if existsSync path then
    match stat_size path with
    | Throw e => (w, Rejected e)
    | Ok size =>
        match openSync path with
        | Throw e => (w, Rejected e)
        | Ok file =>
            let w1 := mkFileWorld (sent w) (opened w ++ [file]) (closed w) in
            let type_ := table_get MIMETYPE (extname path) in
            let headers :=
              ("Content-Length", size) :: entries_of options
              ++ match type_ with
                 | Some t => [("Content-Type", t)]
                 | None => []
                 end in
            let '(w2, settled) :=
              match new_Headers headers with
              | Throw e => (w1, Rejected e)
              | Ok hs =>
                  file_respond
                    (mkFileResponse (Some (status_of options)) (Some file)
                       (Some hs)) w1
              end in
            match settled with
            | Pending => (w2, Pending)
            | _ =>
                (mkFileWorld (sent w2) (opened w2) (closed w2 ++ [file]),
                 settled)
            end
        end
    end
  else file_respond not_found w.

End RespondFile.

(** ** Auxiliary notions used to state the properties *)

(** Number of occurrences of a code unit in a string. *)
Fixpoint occurrences (c : ascii) (s : string) : nat :=
  match s with
  | EmptyString => O
  | String x r => (if Ascii.eqb x c then 1 else 0) + occurrences c r
  end.

(** A part that [conflicts] and [matches] treat as a wildcard. *)
Definition is_wildcard (p : RouterItemPart) : bool :=
  (param p && String.eqb (name p) "*")%bool.

(** The loop of [conflicts] read as a walk down both part lists at once. *)
Fixpoint conflicts_walk (lparts rparts : list RouterItemPart) : bool :=
  match lparts, rparts with
  | [], [] => true
  | lpart :: lrest, rpart :: rrest =>
      if (String.eqb (name lpart) "*" || String.eqb (name rpart) "*")%bool
      then true
      else if (param lpart || param rpart)%bool
      then conflicts_walk lrest rrest
      else if negb (String.eqb (name lpart) (name rpart))
      then false
      else conflicts_walk lrest rrest
  | _, _ => false
  end.

(** What the callers of a [RouterItem] can observe of the pattern it was
    compiled from: everything but the raw pattern text and the handlers. *)
Definition shape {H : Type} (it : RouterItem H)
  : RouterMethod * list RouterItemPart * bool :=
  (_method it, _parts it, _variadic it).

(** The value of a call that returned, [None] for a call that threw. *)
Definition returned {E A : Type} (r : Result E A) : option A :=
  match r with
  | Ok a => Some a
  | Throw _ => None
  end.

Definition compiled_shape {H X : Type} (r : Result (JsError X) (RouterItem H))
  : option (RouterMethod * list RouterItemPart * bool) :=
  shape <$> returned r.

(** The flag [_variadic] is backed by a part named [*]. *)
Definition wildcard_backed {H : Type} (it : RouterItem H) : Prop :=
  _variadic it = true → ∃ p, p ∈ _parts it ∧ name p = "*".

(** The request segments agree with every literal part of [rest], the part
    at offset [j] being compared with the segment at index [i + j]. *)
Definition literals_agree (rest : list RouterItemPart) (parts : list string)
    (i : nat) : Prop :=
  ∀ j lp, rest !! j = Some lp → param lp = false →
          parts !! (i + j)%nat = Some (name lp).

(** Malformed pieces of a pattern: a piece with a [:] that is not its first
    and only one, and a piece without [:] that holds a [*] and something
    else. *)
Definition colon_misplaced (piece : string) : Prop :=
  (0 < occurrences JSString.colon piece)%nat
  ∧ ¬ ∃ r, piece = String JSString.colon r
           ∧ occurrences JSString.colon r = O.

Definition star_mixed (piece : string) : Prop :=
  occurrences JSString.colon piece = O
  ∧ (0 < occurrences JSString.star piece)%nat
  ∧ piece ≠ "*".

Definition malformed (pattern : string) : Prop :=
  pattern = EmptyString
  ∨ (2 ≤ occurrences JSString.star pattern)%nat
  ∨ ∃ piece, piece ∈ JSString.segments pattern
             ∧ (colon_misplaced piece ∨ star_mixed piece).

(** A pattern whose [*], if any, stands for a Wildcard: the only piece
    with a [:] that may hold a [*] is [:*] itself. *)
Definition star_only_as_wildcard (pattern : string) : Prop :=
  ∀ piece, piece ∈ JSString.segments pattern →
           (0 < occurrences JSString.colon piece)%nat →
           (0 < occurrences JSString.star piece)%nat →
           piece = ":*".

(** The routers an application can build: the empty one, grown by calls of
    [GET], [POST], [PATCH], [DELETE] or [OPTIONS] that did not throw. *)
Inductive built {T W X : Type} : @Router T W X → Prop :=
| built_new : built (mkRouter [])
| built_add (m : RouterMethod) (pattern : string)
    (head : RouterHandler T W X) (tail : list (RouterHandler T W X))
    (this this' : Router) :
    built this →
    _add m pattern head tail this = (Ok tt, this') →
    built this'.

(** The piece of a pattern a compiled part was read from, up to the two
    spellings [*] and [:*] of the part named [*]. *)
Definition unparse (p : RouterItemPart) : string :=
  if param p then String JSString.colon (name p) else name p.




(** ** Sample handlers, routes and requests *)

(** A handler that leaves a note in the world, a journal of notes, and
    invokes its continuation or not. *)
Definition note (s : string) (next : bool)
  : RouterHandler unit (list string) unit :=
  fun _ w => (w ++ [s], Fulfilled next).

(** A host URL parser for request targets that are plain paths. *)
Definition plain_path (u : string) : Result (JsError unit) string := Ok u.

Definition sample_table : @Router unit (list string) unit :=
  mkRouter
    [mkItem GET "/a" [note "a" true] [mkPart "a" false] false;
     mkItem GET "/b/:id" [note "b1" false; note "b2" true]
       [mkPart "b" false; mkPart "id" true] false;
     mkItem GET "/b/:id/c" [note "c" true]
       [mkPart "b" false; mkPart "id" true; mkPart "c" false] false].

Definition sample_request (m u : string) : ServerRequest :=
  mkReq m u (fun _ => None).

(** A request carrying the text [{] as [text/plain], not read yet, and a
    host whose [JSON.parse] rejects that text. *)
Definition plain_text_request : ServerRequest :=
  mkReq "POST" "/upload"
    (fun h => if String.eqb h "Content-Type" then Some "text/plain" else None).

Definition plain_text_world : World unit unit :=
  mkWorld (Fulfilled "{") None None [] (fun _ => ∅).

Definition json_request : ServerRequest :=
  mkReq "POST" "/upload"
    (fun h => if String.eqb h "Content-Type" then Some "application/json"
              else None).

Definition json_world (text : string) : World unit unit :=
  mkWorld (Fulfilled text) None None [] (fun _ => ∅).

Definition strict_parse (text : string) : Result string unit :=
  if String.eqb text "{" then Throw "Unexpected end of JSON input" else Ok tt.

Definition lenient_decode (text : string) : Result unit string := Ok text.

(** A handler that leaves a note and then throws. *)
Definition failing_note (s : string)
  : RouterHandler unit (list string) unit :=
  fun _ w => (w ++ [s], Rejected (Error s)).

Definition faulty_table : @Router unit (list string) unit :=
  mkRouter
    [mkItem GET "/a" [note "a" true] [mkPart "a" false] false;
     mkItem POST "/a" [note "x" true; failing_note "boom"; note "y" true]
       [mkPart "a" false] false].




(** A host with one file, [public/index.html], of 12 bytes. *)
Definition one_file_exists (path : string) : bool :=
  String.eqb path "public/index.html".

Definition one_file_size (path : string) : Result (JsError unit) string :=
  Ok "12".

Definition one_file_open (path : string) : Result (JsError unit) nat :=
  Ok 7%nat.

Definition html_extname (path : string) : string := ".html".

Definition any_headers (l : list (string * string))
  : Result (JsError unit) (list (string * string)) := Ok l.

Definition write_fails (resp : FileResponse) : Promise (JsError unit) unit :=
  Rejected (Error "Broken pipe").

Definition idle_files : FileWorld := mkFileWorld [] [] [].

(** The first two routes of [sample_table]. *)
Definition route_a : RouterItem (RouterHandler unit (list string) unit) :=
  mkItem GET "/a" [note "a" true] [mkPart "a" false] false.

Definition route_b : RouterItem (RouterHandler unit (list string) unit) :=
  mkItem GET "/b/:id" [note "b1" false; note "b2" true]
    [mkPart "b" false; mkPart "id" true] false.



(** * Properties *)

(** ** Strings *)

Section StringFacts.
Import JSString.

Lemma ascii_eqb_true (a b : ascii) : Ascii.eqb a b = true ↔ a = b.
Proof. apply Ascii.eqb_eq. Qed.

Lemma ascii_eqb_false (a b : ascii) : Ascii.eqb a b = false ↔ a ≠ b.
Proof. apply Ascii.eqb_neq. Qed.

Lemma includes_occurrences (c : ascii) (s : string) :
  includes c s = negb (Nat.eqb (occurrences c s) 0).
Proof.
  induction s as [|x r IH]; simpl; [done|].
  destruct (Ascii.eqb x c); simpl; done.
Qed.

Lemma indexOf_range (c : ascii) (s : string) :
  (indexOf c s = -1 ∧ occurrences c s = O)
  ∨ (0 ≤ indexOf c s ∧ (0 < occurrences c s)%nat).
Proof.
  induction s as [|x r IH]; simpl; [by left|].
  destruct (Ascii.eqb x c); simpl; [right; lia|].
  destruct IH as [[-> ->]|[Hk Ho]]; [by left|].
  right. destruct (Z.ltb_spec (indexOf c r) 0); lia.
Qed.

Lemma lastIndexOf_range (c : ascii) (s : string) :
  (lastIndexOf c s = -1 ∧ occurrences c s = O)
  ∨ (0 ≤ lastIndexOf c s ∧ (0 < occurrences c s)%nat).
Proof.
  induction s as [|x r IH]; simpl; [by left|].
  destruct IH as [[-> ->]|[Hk Ho]]; simpl.
  - destruct (Ascii.eqb x c); [right; lia|by left].
  - right. destruct (Z.leb_spec 0 (lastIndexOf c r)); [|lia].
    split; [lia|]. destruct (Ascii.eqb x c); lia.
Qed.

Lemma indexOf_le_lastIndexOf (c : ascii) (s : string) :
  indexOf c s ≤ lastIndexOf c s.
Proof.
  induction s as [|x r IH]; simpl; [done|].
  destruct (lastIndexOf_range c r) as [[Hl Ho]|[Hl Ho]],
           (indexOf_range c r) as [[Hi Ho']|[Hi Ho']]; try lia.
  - rewrite Hl, Hi. simpl. destruct (Ascii.eqb x c); done.
  - destruct (Z.leb_spec 0 (lastIndexOf c r)); [|lia].
    destruct (Ascii.eqb x c); [lia|].
    destruct (Z.ltb_spec (indexOf c r) 0); lia.
Qed.

(** The constructor's test [indexOf('*') !== lastIndexOf('*')] holds exactly
    when the code unit occurs more than once. *)
Lemma indexOf_lastIndexOf_occurrences (c : ascii) (s : string) :
  (indexOf c s =? lastIndexOf c s) = Nat.leb (occurrences c s) 1.
Proof.
  induction s as [|x r IH]; simpl; [done|].
  pose proof (indexOf_le_lastIndexOf c r) as Hle.
  destruct (lastIndexOf_range c r) as [[Hl Ho]|[Hl Ho]],
           (indexOf_range c r) as [[Hi Ho']|[Hi Ho']]; try lia.
  - rewrite Hl, Hi, Ho. simpl. destruct (Ascii.eqb x c); done.
  - destruct (Z.leb_spec 0 (lastIndexOf c r)); [|lia].
    destruct (Ascii.eqb x c) eqn:E.
    + transitivity false; [apply Z.eqb_neq; lia|].
      symmetry. apply Nat.leb_gt. lia.
    + rewrite Nat.add_0_l.
      destruct (Z.ltb_spec (indexOf c r) 0); [lia|].
      rewrite <- IH.
      destruct (Z.eqb_spec (indexOf c r) (lastIndexOf c r)) as [->|Hne].
      * apply Z.eqb_refl.
      * apply Z.eqb_neq. lia.
Qed.

Lemma occurrences_append (c : ascii) (s t : string) :
  occurrences c (s +:+ t) = (occurrences c s + occurrences c t)%nat.
Proof. induction s as [|x r IH]; simpl; [done|]. rewrite IH. lia. Qed.

Lemma length_eqb_0 (s : string) :
  s ≠ EmptyString → Nat.eqb (String.length s) 0 = false.
Proof. by destruct s. Qed.

Lemma join_cons_cons (sep : ascii) (s t : string) (l : list string) :
  join sep (s :: t :: l) = s +:+ String sep (join sep (t :: l)).
Proof. done. Qed.

Lemma join_String (sep x : ascii) (p : string) (ps : list string) :
  join sep (String x p :: ps) = String x (join sep (p :: ps)).
Proof. destruct ps; done. Qed.

Lemma split_not_nil (sep : ascii) (s : string) : split sep s ≠ [].
Proof.
  induction s as [|x r IH]; simpl; [done|].
  destruct (Ascii.eqb x sep); [done|]. by destruct (split sep r).
Qed.

(** No piece produced by [split] contains the separator. *)
Lemma split_pieces (sep : ascii) (s : string) :
  Forall (fun p => occurrences sep p = O) (split sep s).
Proof.
  induction s as [|x r IH]; simpl; [by repeat constructor|].
  destruct (Ascii.eqb x sep) eqn:E; [by constructor|].
  destruct (split sep r) as [|p ps]; [by repeat constructor; simpl; rewrite E|].
  inversion_clear IH. constructor; [|done]. simpl. by rewrite E.
Qed.

(** [split] and [join] are inverse to each other. *)
Lemma join_split (sep : ascii) (s : string) : join sep (split sep s) = s.
Proof.
  induction s as [|x r IH]; simpl; [done|].
  pose proof (split_not_nil sep r) as Hne.
  destruct (Ascii.eqb x sep) eqn:E.
  - apply ascii_eqb_true in E as ->.
    destruct (split sep r) as [|t l]; [done|].
    rewrite join_cons_cons, IH. done.
  - destruct (split sep r) as [|t l]; [done|].
    rewrite join_String, IH. done.
Qed.

Lemma split_one (sep : ascii) (p : string) :
  occurrences sep p = O → split sep p = [p].
Proof.
  induction p as [|x r IH]; simpl; [done|].
  destruct (Ascii.eqb x sep); [done|]. intros Ho. by rewrite IH.
Qed.

Lemma split_append (sep : ascii) (p q : string) :
  occurrences sep p = O →
  split sep (p +:+ String sep q) = p :: split sep q.
Proof.
  induction p as [|x r IH]; simpl.
  - intros _. by rewrite Ascii.eqb_refl.
  - destruct (Ascii.eqb x sep); [done|]. intros Ho. by rewrite IH.
Qed.

Lemma split_join (sep : ascii) (l : list string) :
  l ≠ [] → Forall (fun p => occurrences sep p = O) l →
  split sep (join sep l) = l.
Proof.
  induction l as [|s l IH]; [done|]. intros _ Hall.
  inversion_clear Hall as [|? ? Hs Hl].
  destruct l as [|t l]; [by apply split_one|].
  rewrite join_cons_cons, split_append by done.
  f_equal. by apply IH.
Qed.

Lemma occurrences_join (c sep : ascii) (l : list string) :
  c ≠ sep →
  occurrences c (join sep l) = sum_list (occurrences c <$> l).
Proof.
  intros Hne. induction l as [|s l IH]; [done|].
  destruct l as [|t l]; [simpl; lia|].
  rewrite join_cons_cons, occurrences_append, fmap_cons.
  cbn [occurrences sum_list sum_list_with].
  apply ascii_eqb_false in Hne. rewrite Ascii.eqb_sym, Hne, IH. done.
Qed.

Lemma join_not_empty (sep : ascii) (l : list string) (s : string) :
  s ∈ l → s ≠ EmptyString → join sep l ≠ EmptyString.
Proof.
  induction l as [|t l IH]; [by intros ?%elem_of_nil|].
  intros Hin Hs. destruct l as [|u l].
  - apply list_elem_of_singleton in Hin as <-. done.
  - rewrite join_cons_cons. destruct t; [done|done].
Qed.

End StringFacts.

(** ** [conflicts] and [matches] *)

Section ItemFacts.
Context {H : Type}.
Import JSString.

Implicit Types (a b it : RouterItem H) (l r rest : list RouterItemPart).

Lemma RouterMethod_eqb_eq (m n : RouterMethod) :
  RouterMethod_eqb m n = true ↔ m = n.
Proof. destruct m, n; simpl; split; intros; congruence. Qed.

Lemma method_string_inj (m n : RouterMethod) :
  method_string m = method_string n → m = n.
Proof. destruct m, n; simpl; intros; congruence. Qed.

Lemma conflicts_loop_walk l r (n i : nat) :
  n = (Nat.max (length l) (length r) - i)%nat →
  conflicts_loop l r i n = conflicts_walk (drop i l) (drop i r).
Proof.
  revert i. induction n as [|n IH]; intros i Hn; simpl.
  - rewrite !drop_ge by lia. done.
  - destruct (l !! i) as [lp|] eqn:El, (r !! i) as [rp|] eqn:Er.
    + rewrite (drop_S l lp i El), (drop_S r rp i Er). simpl.
      rewrite (IH (S i)) by lia. done.
    + apply lookup_ge_None in Er.
      rewrite (drop_S l lp i El), (drop_ge r) by lia. done.
    + apply lookup_ge_None in El.
      rewrite (drop_S r rp i Er), (drop_ge l) by lia. done.
    + apply lookup_ge_None in El. apply lookup_ge_None in Er. lia.
Qed.

(** [conflicts] is the method test followed by the walk. *)
Lemma conflicts_unfold a b :
  conflicts a b =
  (RouterMethod_eqb (_method a) (_method b)
   && conflicts_walk (_parts a) (_parts b))%bool.
Proof.
  unfold conflicts.
  destruct (RouterMethod_eqb (_method a) (_method b)); simpl; [|done].
  rewrite conflicts_loop_walk by lia. by rewrite !drop_0.
Qed.

Lemma conflicts_walk_sym l r : conflicts_walk l r = conflicts_walk r l.
Proof.
  revert r. induction l as [|lp l IH]; intros [|rp r]; simpl; try done.
  rewrite (String.eqb_sym (name rp) (name lp)), IH.
  destruct (String.eqb (name lp) "*"), (String.eqb (name rp) "*"),
    (param lp), (param rp); done.
Qed.

(** A part named [*] on either side at a shared index, with nothing
    decisive before it, makes the walk answer "conflict". *)
Lemma conflicts_walk_false l r parts (i : nat) :
  conflicts_walk l r = false →
  literals_agree l parts i → literals_agree r parts i →
  length l ≠ length r
  ∧ (length l < length r → Forall (fun p => name p ≠ "*") l)%nat
  ∧ (length r < length l → Forall (fun p => name p ≠ "*") r)%nat.
Proof.
  revert r i. induction l as [|lp l IH]; intros [|rp r] i; simpl; try done.
  - intros _ _ _. repeat split; [lia|by constructor|lia].
  - intros _ _ _. repeat split; [lia|lia|by constructor].
  - destruct (String.eqb_spec (name lp) "*") as [|Hl]; [done|].
    destruct (String.eqb_spec (name rp) "*") as [|Hr]; [done|]. simpl.
    intros Hw Hla Hra.
    assert (literals_agree l parts (S i)) as Hla'.
    { intros j p Hj Hp. specialize (Hla (S j) p Hj Hp).
      by rewrite Nat.add_succ_r in Hla. }
    assert (literals_agree r parts (S i)) as Hra'.
    { intros j p Hj Hp. specialize (Hra (S j) p Hj Hp).
      by rewrite Nat.add_succ_r in Hra. }
    assert (conflicts_walk l r = false) as Hw'.
    { destruct (param lp) eqn:Pl, (param rp) eqn:Pr; simpl in Hw; try done.
      destruct (String.eqb_spec (name lp) (name rp)) as [|Hne]; [done|].
      exfalso. apply Hne.
      pose proof (Hla O lp eq_refl Pl) as H1.
      pose proof (Hra O rp eq_refl Pr) as H2. congruence. }
    destruct (IH r (S i) Hw' Hla' Hra') as (Hlen & Hlt & Hgt).
    repeat split; [lia| |]; intros ?; constructor; try done.
    + apply Hlt; lia.
    + apply Hgt; lia.
Qed.

(** When [matches] succeeds: exactly when every literal part equals the
    request segment at its own index. *)
Lemma matches_loop_ok rest parts (i : nat) (ps : gmap string JsStr) :
  matches_ok (matches_loop rest parts i ps) = true
  ↔ literals_agree rest parts i.
Proof.
  revert i ps. induction rest as [|lp rest IH]; intros i ps; simpl.
  - split; [by intros _ j lp ?|done].
  - assert (∀ P : Prop, (literals_agree rest parts (S i) ↔ P) →
        (param lp = false → parts !! i = Some (name lp)) →
        (P ↔ literals_agree (lp :: rest) parts i)) as Hstep.
    { intros P HP Hhd. rewrite <- HP. split.
      - intros Ht [|j] p Hj Hp.
        + rewrite Nat.add_0_r. injection Hj as <-. by apply Hhd.
        + rewrite Nat.add_succ_r. by apply (Ht j p).
      - intros Ht j p Hj Hp. specialize (Ht (S j) p Hj Hp).
        by rewrite Nat.add_succ_r in Ht. }
    destruct (param lp) eqn:Pl.
    + destruct (String.eqb (name lp) "*"); apply Hstep; try done;
        symmetry; apply IH.
    + unfold js_index. destruct (parts !! i) as [s|] eqn:Es; simpl.
      * destruct (String.eqb_spec (name lp) s) as [Heq|Hne]; simpl.
        -- apply Hstep; [symmetry; apply IH|by rewrite Heq].
        -- split; [done|]. intros Ha.
           specialize (Ha O lp eq_refl Pl). rewrite Nat.add_0_r in Ha.
           congruence.
      * split; [done|]. intros Ha.
        specialize (Ha O lp eq_refl Pl). rewrite Nat.add_0_r in Ha.
        congruence.
Qed.

Lemma matches_ok_iff it (m : string) parts :
  matches_ok (matches it m parts) = true
  ↔ toUpperCase m = method_string (_method it)
    ∧ (if _variadic it then length (_parts it) ≤ length parts
       else length (_parts it) = length parts)%nat
    ∧ literals_agree (_parts it) parts 0.
Proof.
  unfold matches.
  destruct (String.eqb_spec (toUpperCase m) (method_string (_method it)))
    as [Hm|Hm]; [|split; [done|tauto]].
  destruct (_variadic it); cbn [negb];
    rewrite ?andb_true_r, ?andb_false_r, ?orb_false_r, ?orb_false_l.
  - destruct (Nat.leb_spec (length (_parts it)) (length parts)).
    + rewrite matches_loop_ok. tauto.
    + split; [done|]. intros (_ & ? & _). lia.
  - destruct (Nat.eqb_spec (length (_parts it)) (length parts)).
    + rewrite matches_loop_ok. tauto.
    + split; [done|]. tauto.
Qed.

(** The conflict check is sound for items whose variadic flag is backed by
    a part named [*]: two such items that do not conflict never match the
    same request. *)
Theorem conflicts_sound a b (m : string) parts :
  wildcard_backed a → wildcard_backed b →
  conflicts a b = false →
  matches_ok (matches a m parts) = true →
  matches_ok (matches b m parts) = true →
  False.
Proof.
  intros Ha Hb Hc (Hma & Hla & Hga)%matches_ok_iff (Hmb & Hlb & Hgb)%matches_ok_iff.
  rewrite conflicts_unfold in Hc.
  assert (_method a = _method b) as Hm by (apply method_string_inj; congruence).
  apply RouterMethod_eqb_eq in Hm. rewrite Hm in Hc. simpl in Hc.
  destruct (conflicts_walk_false _ _ parts O Hc Hga Hgb) as (Hlen & Hlt & Hgt).
  assert (∀ it, wildcard_backed it →
            Forall (fun p => name p ≠ "*") (_parts it) →
            _variadic it = false) as Hflag.
  { intros it Hit Hall. destruct (_variadic it) eqn:Ev; [|done].
    destruct (Hit Ev) as (p & Hp & Hn).
    rewrite Forall_forall in Hall. by destruct (Hall p Hp). }
  destruct (Nat.lt_total (length (_parts a)) (length (_parts b)))
    as [Hlt'|[?|Hgt']]; [|done|].
  - rewrite (Hflag a Ha (Hlt Hlt')) in Hla. destruct (_variadic b); lia.
  - rewrite (Hflag b Hb (Hgt Hgt')) in Hlb. destruct (_variadic a); lia.
Qed.

End ItemFacts.

(** ** The pattern compiler *)

Section CompileFacts.
Context {H X : Type}.
Import JSString.

Implicit Types (it : RouterItem H) (pieces : list string).

Lemma sum_list_lookup_le (l : list nat) (i x : nat) :
  l !! i = Some x → (x ≤ sum_list l)%nat.
Proof.
  revert i. induction l as [|y l IH]; intros [|i]; simpl; try done.
  - intros [= ->]. lia.
  - intros Hi. specialize (IH i Hi). lia.
Qed.

Lemma sum_list_lookup2_le (l : list nat) (i j x y : nat) :
  i ≠ j → l !! i = Some x → l !! j = Some y → (x + y ≤ sum_list l)%nat.
Proof.
  revert i j. induction l as [|z l IH]; intros [|i] [|j]; simpl; try done.
  - intros _ [= ->] Hj. pose proof (sum_list_lookup_le l j y Hj). lia.
  - intros _ Hi [= ->]. pose proof (sum_list_lookup_le l i x Hi). lia.
  - intros Hne Hi Hj. assert (i ≠ j) as Hne' by lia.
    specialize (IH i j Hne' Hi Hj). lia.
Qed.

Lemma sum_list_filter_le (f : string → nat) (l : list string) :
  (sum_list (f <$> filter (fun i => Is_true (truthy i)) l)
   ≤ sum_list (f <$> l))%nat.
Proof.
  induction l as [|s l IH]; [done|].
  rewrite filter_cons, fmap_cons.
  destruct (decide (Is_true (truthy s))); rewrite ?fmap_cons; simpl in *; lia.
Qed.

(** A compiled part named [*] comes from a piece that contains a [*]; a
    literal part is the piece itself, which contains none. *)
Lemma compile_part_star (pattern part : string) (p : RouterItemPart) :
  compile_part (X:=X) pattern part = Ok p →
  (name p = "*" → param p = true ∧ (0 < occurrences star part)%nat)
  ∧ (param p = false → name p = part ∧ occurrences star part = O).
Proof.
  unfold compile_part. rewrite !includes_occurrences.
  destruct (Nat.eqb_spec (occurrences colon part) 0) as [Hc|Hc]; simpl.
  - destruct (Nat.eqb_spec (occurrences star part) 0) as [Hs|Hs]; simpl.
    + intros [= <-]; simpl. split; [|done].
      intros ->. by vm_compute in Hs.
    + destruct (Nat.eqb (String.length part) 1); [|done].
      intros [= <-]; simpl. split; [|done]. intros _. split; [done|lia].
  - destruct (_ && _)%bool; [|done]. intros [= <-]; simpl. split; [|done].
    intros Hn. split; [done|].
    destruct part as [|x r]; simpl in *; [done|]. subst r.
    destruct (Ascii.eqb x star); simpl; lia.
Qed.

(** The loop compiles the pieces one by one, in order. *)
Lemma compile_parts_Ok (pattern : string) pieces
    (acc res : list RouterItemPart) :
  compile_parts (X:=X) pattern pieces acc = Ok res →
  ∃ ps, res = acc ++ ps
        ∧ Forall2 (fun piece p => compile_part (X:=X) pattern piece = Ok p)
                  pieces ps.
Proof.
  revert acc. induction pieces as [|piece pieces IH]; intros acc; simpl.
  - intros [= <-]. exists []. by rewrite app_nil_r.
  - destruct (compile_part pattern piece) as [p|e] eqn:E; simpl; [|done].
    intros (ps & -> & Hps)%IH. exists (p :: ps).
    rewrite <- app_assoc. split; [done|]. by constructor.
Qed.

(** The pattern text only reaches the error message: pieces that compile
    alike give part lists that are alike. *)
Lemma compile_parts_returned (pattern pattern' : string) pieces pieces'
    (acc : list RouterItemPart) :
  Forall2 (fun s s' => returned (compile_part (X:=X) pattern s)
                       = returned (compile_part (X:=X) pattern' s'))
          pieces pieces' →
  returned (compile_parts (X:=X) pattern pieces acc)
  = returned (compile_parts (X:=X) pattern' pieces' acc).
Proof.
  intros Hall. revert acc.
  induction Hall as [|s s' l l' Hs _ IH]; intros acc; simpl; [done|].
  destruct (compile_part pattern s) as [p|e],
           (compile_part pattern' s') as [p'|e']; simpl in *; try done.
  injection Hs as <-. apply IH.
Qed.

Lemma compile_part_pattern (pattern pattern' s : string) :
  returned (compile_part (X:=X) pattern s)
  = returned (compile_part (X:=X) pattern' s).
Proof.
  unfold compile_part.
  destruct (includes colon s); [destruct (_ && _)%bool; done|].
  destruct (includes star s); [destruct (Nat.eqb _ _); done|done].
Qed.

(** What a successful [new RouterItem(...)] built. *)
Lemma RouterItem_new_Ok (m : RouterMethod) (pattern : string) (h : H)
    (t : list H) it :
  RouterItem_new (X:=X) m pattern h t = Ok it →
  pattern ≠ EmptyString
  ∧ (occurrences star pattern ≤ 1)%nat
  ∧ it = mkItem m pattern (h :: t) (_parts it) (includes star pattern)
  ∧ Forall2 (fun piece p => compile_part (X:=X) pattern piece = Ok p)
            (segments pattern) (_parts it).
Proof.
  unfold RouterItem_new.
  destruct pattern as [|x r] eqn:Ep; [done|]. rewrite <- Ep.
  replace (Nat.eqb (String.length pattern) 0) with false by by rewrite Ep.
  rewrite indexOf_lastIndexOf_occurrences.
  destruct (Nat.leb_spec (occurrences star pattern) 1); simpl; [|done].
  destruct (compile_parts pattern (segments pattern) []) as [ps|e] eqn:E;
    simpl; [|done].
  intros [= <-]; simpl. apply compile_parts_Ok in E as (ps' & -> & Hps).
  repeat split; [by rewrite Ep|done|done].
Qed.

(** The pieces of a pattern hold, together, no more [*] than the pattern. *)
Lemma segments_occurrences (pattern : string) :
  (sum_list (occurrences star <$> segments pattern)
   ≤ occurrences star pattern)%nat.
Proof.
  rewrite <- (join_split slash pattern) at 2.
  rewrite occurrences_join by done. apply sum_list_filter_le.
Qed.

(** A compiled pattern has at most one part named [*]. *)
Lemma compiled_star_unique (m : RouterMethod) (pattern : string) (h : H)
    (t : list H) it (i j : nat) (p q : RouterItemPart) :
  RouterItem_new (X:=X) m pattern h t = Ok it →
  _parts it !! i = Some p → _parts it !! j = Some q →
  name p = "*" → name q = "*" → i = j.
Proof.
  intros (_ & Hle & _ & Hps)%RouterItem_new_Ok Hi Hj Hp Hq.
  destruct (decide (i = j)) as [|Hne]; [done|exfalso].
  destruct (Forall2_lookup_r _ _ _ _ _ Hps Hi) as (s & Hs & Hcs).
  destruct (Forall2_lookup_r _ _ _ _ _ Hps Hj) as (s' & Hs' & Hcs').
  apply compile_part_star in Hcs as [Hcs _].
  apply compile_part_star in Hcs' as [Hcs' _].
  destruct (Hcs Hp) as [_ Hos]. destruct (Hcs' Hq) as [_ Hos'].
  pose proof (sum_list_lookup2_le (occurrences star <$> segments pattern)
                i j (occurrences star s) (occurrences star s') Hne) as Hsum.
  rewrite !list_lookup_fmap, Hs, Hs' in Hsum. specialize (Hsum eq_refl eq_refl).
  pose proof (segments_occurrences pattern). lia.
Qed.

(** A part named [*] sets the variadic flag. *)
Lemma compiled_wildcard_variadic (m : RouterMethod) (pattern : string) (h : H)
    (t : list H) it (p : RouterItemPart) :
  RouterItem_new (X:=X) m pattern h t = Ok it →
  p ∈ _parts it → name p = "*" → param p = true ∧ _variadic it = true.
Proof.
  intros (_ & _ & Hit & Hps)%RouterItem_new_Ok (i & Hi)%list_elem_of_lookup Hp.
  destruct (Forall2_lookup_r _ _ _ _ _ Hps Hi) as (s & Hs & Hcs).
  apply compile_part_star in Hcs as [Hcs _]. destruct (Hcs Hp) as [Hpar Hos].
  split; [done|]. rewrite Hit. simpl. rewrite includes_occurrences.
  pose proof (sum_list_lookup_le (occurrences star <$> segments pattern)
                i (occurrences star s)) as Hsum.
  rewrite list_lookup_fmap, Hs in Hsum. specialize (Hsum eq_refl).
  pose proof (segments_occurrences pattern).
  destruct (Nat.eqb_spec (occurrences star pattern) 0); [lia|done].
Qed.

End CompileFacts.

(** ** A parameter named [*] *)

Section ColonStar.
Context {H X : Type}.
Import JSString.

Lemma matches_shape {H1 H2 : Type} (a : RouterItem H1) (b : RouterItem H2)
    (rm : string) (parts : list string) :
  shape a = shape b → matches a rm parts = matches b rm parts.
Proof. destruct a, b. unfold shape, matches; simpl. by intros [= -> -> ->]. Qed.

Lemma conflicts_shape {H1 H2 : Type} (a c : RouterItem H1)
    (b d : RouterItem H2) :
  shape a = shape b → shape c = shape d → conflicts a c = conflicts b d.
Proof.
  destruct a, b, c, d. unfold shape, conflicts; simpl.
  by intros [= -> -> ->] [= -> -> ->].
Qed.

Lemma sum_list_fmap_insert (f : string → nat) (l : list string) (i : nat)
    (x y : string) :
  l !! i = Some x → f x = f y →
  sum_list (f <$> <[i := y]> l) = sum_list (f <$> l).
Proof.
  revert i. induction l as [|s l IH]; intros [|i]; csimpl; try done.
  - intros [= ->] ->. done.
  - intros Hi Hf. f_equal. by apply IH.
Qed.

Lemma filter_insert_related (R : string → string → Prop) (l : list string)
    (i : nat) (x y : string) :
  (∀ s, R s s) → R x y → truthy x = true → truthy y = true →
  l !! i = Some x →
  Forall2 R (filter (fun s => Is_true (truthy s)) l)
            (filter (fun s => Is_true (truthy s)) (<[i := y]> l)).
Proof.
  intros Hrefl Hxy Hx Hy. revert i.
  induction l as [|s l IH]; intros [|i]; simpl; try done.
  - intros [= ->]. rewrite !filter_cons, Hx, Hy. simpl.
    constructor; [done|]. by apply Forall2_same_length_lookup_2; [|naive_solver].
  - intros Hi. rewrite !filter_cons.
    destruct (decide (Is_true (truthy s))); [constructor|]; eauto.
Qed.

(** ** C10 *)

(** C10. A pattern in which some [/]-separated piece is exactly [:*]
    compiles to the same method, the same part list and the same variadic
    flag as the pattern with that piece replaced by [*] (and is rejected
    when, and only when, that one is): both pieces become the part
    [{ name: '*', param: true }].  So [matches] returns the same result for
    the two compiled patterns on every request, and [conflicts] cannot
    tell them apart. *)
Theorem colon_star_compiles_as_wildcard (m : RouterMethod) (pattern : string)
    (i : nat) (h : H) (t : list H) :
  split slash pattern !! i = Some ":*" →
  let pattern' := join slash (<[i := "*"]> (split slash pattern)) in
  (∀ p, compile_part (X:=X) p ":*" = Ok (mkPart "*" true)
        ∧ compile_part (X:=X) p "*" = Ok (mkPart "*" true))
  ∧ compiled_shape (RouterItem_new (X:=X) m pattern h t)
    = compiled_shape (RouterItem_new (X:=X) m pattern' h t)
  ∧ ∀ a b, RouterItem_new (X:=X) m pattern h t = Ok a →
           RouterItem_new (X:=X) m pattern' h t = Ok b →
           (∀ rm parts, matches a rm parts = matches b rm parts)
           ∧ (∀ c, conflicts a c = conflicts b c
                   ∧ conflicts c a = conflicts c b).
Proof.
  intros Hi pattern'.
  assert (compiled_shape (RouterItem_new (X:=X) m pattern h t)
          = compiled_shape (RouterItem_new (X:=X) m pattern' h t)) as Hshape.
  { set (segs := split slash pattern) in *.
    assert (occurrences star pattern' = occurrences star pattern) as Hocc.
    { unfold pattern'. rewrite occurrences_join by done.
      rewrite (sum_list_fmap_insert _ _ _ ":*") by done.
      rewrite <- (occurrences_join star slash) by done.
      unfold segs. by rewrite join_split. }
    assert (segments pattern' = filter (fun s => Is_true (truthy s))
                                  (<[i := "*"]> segs)) as Hseg.
    { unfold segments, pattern'. rewrite split_join; [done| |].
      - intros Hnil. apply (f_equal length) in Hnil.
        rewrite length_insert in Hnil. apply lookup_lt_Some in Hi.
        simpl in Hnil. lia.
      - apply Forall_insert; [apply split_pieces|done]. }
    assert (pattern ≠ EmptyString) as Hne.
    { intros ->. by destruct i. }
    assert (pattern' ≠ EmptyString) as Hne'.
    { apply join_not_empty with (s := "*"); [|done].
      apply list_elem_of_lookup. exists i.
      apply list_lookup_insert_eq. by apply lookup_lt_Some in Hi. }
    unfold RouterItem_new.
    rewrite !length_eqb_0 by done.
    rewrite !indexOf_lastIndexOf_occurrences, !includes_occurrences, Hocc.
    destruct (Nat.leb (occurrences star pattern) 1); simpl; [|done].
    pose proof (compile_parts_returned (X:=X) pattern pattern'
                  (segments pattern) (segments pattern') []) as Hret.
    rewrite Hseg in Hret |- *.
    assert (returned (compile_parts (X:=X) pattern (segments pattern) [])
            = returned (compile_parts (X:=X) pattern'
                (filter (fun s => Is_true (truthy s)) (<[i := "*"]> segs)) []))
      as Hsame.
    { apply Hret. apply filter_insert_related with (x := ":*");
        [apply compile_part_pattern|done..]. }
    unfold compiled_shape.
    destruct (compile_parts (X:=X) pattern (segments pattern) []) as [ps|e],
             (compile_parts (X:=X) pattern' _ []) as [ps'|e'];
      simpl in *; try done.
    by injection Hsame as ->. }
  split; [intros p; split; reflexivity|]. split; [done|].
  intros a b Ha Hb. rewrite Ha, Hb in Hshape.
  unfold compiled_shape in Hshape. simpl in Hshape.
  apply (inj Some) in Hshape.
  split; [intros; by apply matches_shape|].
  intros c. split; by apply conflicts_shape.
Qed.

End ColonStar.

(** ** What [matches] binds *)

Section MatchFacts.
Context {H X : Type}.
Import JSString.

Implicit Types (it : RouterItem H) (rest : list RouterItemPart).

Lemma js_set_lookup_star (k : string) (v : JsStr) (ps : gmap string JsStr) :
  js_set k v ps !! "*" = if String.eqb k "*" then Some v else ps !! "*".
Proof.
  unfold js_set. destruct (String.eqb_spec k "*") as [->|Hne].
  - apply lookup_insert_eq.
  - by apply lookup_insert_ne.
Qed.

(** Parts not named [*] leave the binding of [*] alone. *)
Lemma matches_loop_star_kept rest (parts : list string) (i : nat)
    (ps : gmap string JsStr) :
  Forall (fun p => name p ≠ "*") rest →
  matches_ok (matches_loop rest parts i ps) = true →
  params (matches_loop rest parts i ps) !! "*" = ps !! "*".
Proof.
  revert i ps. induction rest as [|lp rest IH]; intros i ps Hall; simpl;
    [done|].
  inversion_clear Hall as [|? ? Hlp Hrest].
  apply String.eqb_neq in Hlp. rewrite Hlp.
  destruct (param lp).
  - intros Hok. rewrite (IH _ _ Hrest Hok), js_set_lookup_star. by rewrite Hlp.
  - destruct (negb _); [done|]. by apply IH.
Qed.

(** The one part named [*], at offset [k], binds [*] to the join of the
    request segments from its own index onward. *)
Lemma matches_loop_star rest (parts : list string) (i k : nat)
    (ps : gmap string JsStr) :
  rest !! k = Some (mkPart "*" true) →
  (∀ j q, rest !! j = Some q → name q = "*" → j = k) →
  matches_ok (matches_loop rest parts i ps) = true →
  params (matches_loop rest parts i ps) !! "*"
  = Some (Str (join slash (drop (i + k) parts))).
Proof.
  revert i k ps. induction rest as [|lp rest IH]; intros i k ps Hk Huniq;
    [done|].
  assert (∀ k', (∀ j q, (lp :: rest) !! j = Some q → name q = "*" → j = S k') →
                ∀ j q, rest !! j = Some q → name q = "*" → j = k') as Htail.
  { intros k' Hu j q Hj Hq. specialize (Hu (S j) q Hj Hq). lia. }
  destruct k as [|k]; simpl in Hk.
  - injection Hk as ->. simpl. rewrite Nat.add_0_r. intros Hok.
    rewrite matches_loop_star_kept; [by rewrite js_set_lookup_star|
                                     |done].
    apply Forall_lookup_2. intros j q Hj Hq.
    specialize (Huniq (S j) q Hj Hq). lia.
  - assert (name lp ≠ "*") as Hlp.
    { intros Hn. specialize (Huniq O lp eq_refl Hn). lia. }
    apply String.eqb_neq in Hlp. simpl. rewrite Hlp, Nat.add_succ_r.
    destruct (param lp).
    + apply (IH (S i) k); [done|by apply Htail].
    + destruct (negb _); [done|]. apply (IH (S i) k); [done|by apply Htail].
Qed.

(** ** C3 *)

(** C3 (as the code has it). For a compiled pattern with its Wildcard part
    at index [i] and any request: [matches] succeeds exactly when the
    method agrees, the request has at least as many segments as the
    pattern has parts, and every literal part of the pattern, those after
    the Wildcard included, equals the request segment at its own index; a
    literal part after the Wildcard that differs from its request segment
    fails the match.  When [matches] succeeds, [*] is bound to the
    [/]-join of the request segments from index [i] onward. *)
Theorem wildcard_binds_rest_and_walk_goes_on (m : RouterMethod)
    (pattern : string) (h : H) (t : list H) it (rm : string)
    (parts : list string) (i : nat) :
  RouterItem_new (X:=X) m pattern h t = Ok it →
  _parts it !! i = Some (mkPart "*" true) →
  (matches_ok (matches it rm parts) = true
   ↔ toUpperCase rm = method_string m
     ∧ (length (_parts it) ≤ length parts)%nat
     ∧ literals_agree (_parts it) parts 0)
  ∧ (∀ j lp, (i < j)%nat → _parts it !! j = Some lp → param lp = false →
             parts !! j ≠ Some (name lp) →
             matches_ok (matches it rm parts) = false)
  ∧ (matches_ok (matches it rm parts) = true →
     params (matches it rm parts) !! "*"
     = Some (Str (join slash (drop i parts)))).
Proof.
  intros Hnew Hi.
  assert (_variadic it = true) as Hv.
  { apply (compiled_wildcard_variadic (X:=X) m pattern h t it
             (mkPart "*" true) Hnew); [|done].
    by eapply list_elem_of_lookup_2. }
  assert (_method it = m) as Hm.
  { apply RouterItem_new_Ok in Hnew as (_ & _ & -> & _). done. }
  assert (matches_ok (matches it rm parts) = true
          ↔ toUpperCase rm = method_string m
            ∧ (length (_parts it) ≤ length parts)%nat
            ∧ literals_agree (_parts it) parts 0) as Hiff.
  { rewrite matches_ok_iff, Hv, Hm. done. }
  split; [done|]. split.
  - intros j lp _ Hj Hp Hne.
    apply not_true_is_false. intros (_ & _ & Hagree)%Hiff.
    apply Hne. by apply (Hagree j lp).
  - intros Hok. unfold matches in *.
    destruct (String.eqb _ _); [|done].
    destruct (_ || _)%bool; [|done].
    apply (matches_loop_star _ parts 0 i); [done| |done].
    intros j q Hj Hq.
    by apply (compiled_star_unique (X:=X) m pattern h t it j i q
                (mkPart "*" true)).
Qed.

End MatchFacts.

(** ** Which patterns the compiler rejects *)

Section Rejection.
Context {H X : Type}.
Import JSString.

Lemma first_and_only (c : ascii) (s : string) :
  ((indexOf c s =? 0) && (lastIndexOf c s =? 0))%bool = true
  ↔ ∃ r, s = String c r ∧ occurrences c r = O.
Proof.
  destruct s as [|x r]; simpl; [split; [done|by intros (? & ? & ?)]|].
  destruct (Ascii.eqb_spec x c) as [->|Hne]; simpl.
  - destruct (lastIndexOf_range c r) as [[Hl Ho]|[Hl Ho]].
    + rewrite Hl. simpl. split; [by exists r|done].
    + destruct (Z.leb_spec 0 (lastIndexOf c r)); [|lia].
      split; [intros ?%Z.eqb_eq; lia|].
      intros (r' & [= <-] & ?). lia.
  - split; [|by intros (? & [= ? ?] & ?)].
    destruct (indexOf_range c r) as [[Hi _]|[Hi _]].
    + rewrite Hi. done.
    + destruct (Z.ltb_spec (indexOf c r) 0); [lia|].
      intros [?%Z.eqb_eq _]%andb_true_iff. lia.
Qed.

Lemma one_star (s : string) :
  (0 < occurrences star s)%nat → String.length s = 1%nat → s = "*".
Proof.
  destruct s as [|x [|y r]]; simpl; [lia| |done].
  destruct (Ascii.eqb_spec x star) as [->|]; [done|lia].
Qed.

Lemma compile_part_error (pattern piece : string) (e : JsError X) :
  compile_part (X:=X) pattern piece = Throw e → e = wrong_pattern pattern.
Proof.
  unfold compile_part.
  destruct (includes colon piece); [destruct (_ && _)%bool; congruence|].
  destruct (includes star piece); [destruct (Nat.eqb _ _); congruence|done].
Qed.

(** A piece is rejected exactly when it is malformed, and always with the
    same error. *)
Lemma compile_part_cases (pattern piece : string) :
  (compile_part (X:=X) pattern piece = Throw (wrong_pattern pattern)
   ∧ (colon_misplaced piece ∨ star_mixed piece))
  ∨ ((∃ p, compile_part (X:=X) pattern piece = Ok p)
     ∧ ¬ (colon_misplaced piece ∨ star_mixed piece)).
Proof.
  unfold compile_part, colon_misplaced, star_mixed.
  rewrite !includes_occurrences.
  destruct (Nat.eqb_spec (occurrences colon piece) 0) as [Hc|Hc]; simpl.
  - destruct (Nat.eqb_spec (occurrences star piece) 0) as [Hs|Hs]; simpl.
    + right. split; [eauto|]. intros [[? _]|(_ & ? & _)]; lia.
    + destruct (Nat.eqb_spec (String.length piece) 1) as [Hl|Hl].
      * right. split; [eauto|]. intros [[? _]|(_ & _ & Hne)]; [lia|].
        destruct Hne. apply one_star; [lia|done].
      * left. split; [done|]. right.
        repeat split; [done|lia|]. by intros ->.
  - destruct (_ && _)%bool eqn:E.
    + apply first_and_only in E. right. split; [eauto|].
      intros [[_ Hno]|(? & _)]; [by destruct Hno|lia].
    + left. split; [done|]. left. split; [lia|].
      intros Hr%first_and_only. congruence.
Qed.

Lemma compile_parts_cases (pattern : string) (pieces : list string)
    (acc : list RouterItemPart) :
  (compile_parts (X:=X) pattern pieces acc = Throw (wrong_pattern pattern)
   ∧ ∃ piece, piece ∈ pieces ∧ (colon_misplaced piece ∨ star_mixed piece))
  ∨ ((∃ ps, compile_parts (X:=X) pattern pieces acc = Ok ps)
     ∧ ¬ ∃ piece, piece ∈ pieces
                  ∧ (colon_misplaced piece ∨ star_mixed piece)).
Proof.
  revert acc. induction pieces as [|piece pieces IH]; intros acc; simpl.
  - right. split; [eauto|]. by intros (? & ?%elem_of_nil & _).
  - destruct (compile_part_cases pattern piece) as [[-> Hm]|[[p ->] Hm]];
      simpl.
    + left. split; [done|]. exists piece. split; [left|done].
    + destruct (IH (acc ++ [p])) as [[-> (s & Hs & Hbad)]|[Hok Hno]].
      * left. split; [done|]. exists s. split; [by right|done].
      * right. split; [done|].
        intros (s & [->|Hs]%elem_of_cons & Hbad); [done|].
        apply Hno. eauto.
Qed.

End Rejection.

(** ** Registration *)

Section Registration.
Context {T W X : Type}.
Import JSString.

Abbreviation Handler := (RouterHandler T W X).
Abbreviation Item := (RouterItem Handler).
Abbreviation Table := (@Router T W X).

Implicit Types (this : Table) (item it : Item) (routes : list Item).

(** [new RouterItem] throws exactly on the malformed patterns. *)
Lemma RouterItem_new_cases (m : RouterMethod) (pattern : string)
    (h : Handler) (t : list Handler) :
  ((∃ msg, RouterItem_new (X:=X) m pattern h t = Throw (Error msg))
   ∧ malformed pattern)
  ∨ ((∃ it, RouterItem_new (X:=X) m pattern h t = Ok it)
     ∧ ¬ malformed pattern).
Proof.
  unfold RouterItem_new, malformed.
  destruct (decide (pattern = EmptyString)) as [->|Hne];
    [left; split; [eauto|tauto]|].
  rewrite length_eqb_0, indexOf_lastIndexOf_occurrences by done.
  destruct (Nat.leb_spec (occurrences star pattern) 1) as [Hle|Hgt]; simpl;
    [|left; split; [unfold wrong_pattern; eauto|right; left; lia]].
  destruct (compile_parts_cases (X:=X) pattern (segments pattern) [])
    as [[-> Hbad]|[[ps ->] Hno]]; simpl.
  - left. split; [unfold wrong_pattern; eauto|tauto].
  - right. split; [eauto|]. intros [?|[?|?]]; [done|lia|done].
Qed.

Lemma check_conflicts_Ok item routes :
  check_conflicts item routes = Ok tt
  ↔ Forall (fun i => conflicts item i = false) routes.
Proof.
  induction routes as [|i routes IH]; simpl; [done|].
  destruct (conflicts item i) eqn:E.
  - split; [done|]. intros Hall. inversion Hall. congruence.
  - rewrite IH. split; [by constructor|by inversion 1].
Qed.

Lemma check_conflicts_Throw item routes (i : Item) :
  i ∈ routes → conflicts item i = true →
  ∃ j, j ∈ routes ∧ conflicts item j = true
       ∧ check_conflicts item routes = Throw (conflict_error item j).
Proof.
  induction routes as [|k routes IH]; [by intros ?%elem_of_nil|].
  intros Hin Hc. simpl. destruct (conflicts item k) eqn:E.
  - exists k. split; [left|done].
  - apply elem_of_cons in Hin as [->|Hin]; [congruence|].
    destruct (IH Hin Hc) as (j & Hj & Hcj & ->). exists j.
    split; [by right|done].
Qed.

(** A call of [_add] that returns appended the compiled item, which
    conflicts with no route of the table; a call that throws left the
    table as it was. *)
Lemma _add_Ok (m : RouterMethod) (pattern : string) (h : Handler)
    (t : list Handler) this this' :
  _add m pattern h t this = (Ok tt, this')
  ↔ ∃ it, RouterItem_new (X:=X) m pattern h t = Ok it
          ∧ Forall (fun i => conflicts it i = false) (_routes this)
          ∧ this' = mkRouter (_routes this ++ [it]).
Proof.
  unfold _add. destruct (RouterItem_new m pattern h t) as [it|e].
  - destruct (check_conflicts it (_routes this)) as [[]|e] eqn:E.
    + apply check_conflicts_Ok in E. split.
      * intros [= <-]. eauto.
      * intros (? & [= <-] & _ & ->). done.
    + split; [done|]. intros (? & [= <-] & Hall%check_conflicts_Ok & _).
      congruence.
  - split; [done|]. by intros (? & ? & _).
Qed.

Lemma _add_Throw (m : RouterMethod) (pattern : string) (h : Handler)
    (t : list Handler) this this' (e : JsError X) :
  _add m pattern h t this = (Throw e, this') → this' = this.
Proof.
  unfold _add. destruct (RouterItem_new m pattern h t) as [it|e'].
  - destruct (check_conflicts it (_routes this)) as [[]|e'']; congruence.
  - congruence.
Qed.

(** ** C6 *)

(** C6 (as the code has it). A registration fails with a construction
    error and leaves the route table exactly as it was when the pattern is
    malformed (it is empty, it holds more than one [*], one of its pieces
    has a [:] that is not its first and only one, or one of its pieces
    without [:] holds a [*] together with other characters) and when the
    compiled pattern conflicts with a route already registered, the error
    then naming the first such route; and every registration that throws
    leaves the table unchanged. *)
Theorem failed_registration_changes_nothing (m : RouterMethod)
    (pattern : string) (h : Handler) (t : list Handler) this :
  (malformed pattern
   → ∃ msg, _add m pattern h t this = (Throw (Error msg), this))
  ∧ (∀ it i, RouterItem_new (X:=X) m pattern h t = Ok it →
             i ∈ _routes this → conflicts it i = true →
             ∃ j, j ∈ _routes this ∧ conflicts it j = true
                  ∧ _add m pattern h t this
                    = (Throw (conflict_error it j), this))
  ∧ (∀ e this', _add m pattern h t this = (Throw e, this') → this' = this).
Proof.
  destruct (RouterItem_new_cases m pattern h t)
    as [[[msg Hmsg] Hbad]|[[it0 Hit0] Hgood]].
  all: split; [|split].
  all: try (intros e this'; apply _add_Throw).
  - intros _. exists msg. unfold _add. by rewrite Hmsg.
  - intros it i Hit. congruence.
  - intros Hm. by destruct Hgood.
  - intros it i Hit Hi Hc.
    destruct (check_conflicts_Throw it _ i Hi Hc) as (j & Hj & Hcj & Hthrow).
    exists j. unfold _add. by rewrite Hit, Hthrow.
Qed.

(** X25. A registration that throws met a malformed pattern or a
    conflict. *)
Lemma registration_throws_only_when (m : RouterMethod) (pattern : string)
    (h : Handler) (t : list Handler) this this' (e : JsError X) :
  _add m pattern h t this = (Throw e, this') →
  malformed pattern
  ∨ ∃ it i, RouterItem_new (X:=X) m pattern h t = Ok it
            ∧ i ∈ _routes this ∧ conflicts it i = true.
Proof.
  destruct (RouterItem_new_cases m pattern h t)
    as [[[msg Hmsg] Hbad]|[[it0 Hit0] Hgood]]; [by left|].
  unfold _add. rewrite Hit0.
  destruct (check_conflicts it0 (_routes this)) as [[]|e''] eqn:Ec; [done|].
  intros _. right. exists it0.
  assert (¬ Forall (fun i => conflicts it0 i = false) (_routes this)) as Hn.
  { intros Hall%check_conflicts_Ok. congruence. }
  apply not_Forall_Exists in Hn; [|intros i; apply _].
  apply Exists_exists in Hn as (i & Hi & Hc).
  exists i. split; [done|]. split; [done|].
  simpl in Hc. by apply not_false_is_true.
Qed.

End Registration.

(** ** Tables built by registration *)

Section Built.
Context {T W X : Type}.
Import JSString.

Implicit Types (this : @Router T W X) (a b it : RouterItem (RouterHandler T W X)).

Lemma conflicts_sym {H : Type} (a b : RouterItem H) :
  conflicts a b = conflicts b a.
Proof.
  rewrite !conflicts_unfold, conflicts_walk_sym.
  by destruct (_method a), (_method b).
Qed.

Lemma conflicts_methods_differ {H : Type} (a b : RouterItem H) :
  _method a ≠ _method b → conflicts a b = false.
Proof.
  intros Hne. unfold conflicts.
  destruct (RouterMethod_eqb (_method a) (_method b)) eqn:E; [|done].
  by apply RouterMethod_eqb_eq in E.
Qed.

(** In a built table, a route conflicts with none of the routes registered
    before it. *)
Lemma built_no_conflict this (i j : nat) a b :
  built this → (i < j)%nat →
  _routes this !! i = Some a → _routes this !! j = Some b →
  conflicts b a = false.
Proof.
  intros Hb. revert i j a b.
  induction Hb as [|m pattern h t this this' _ IH Hadd]; intros i j a b Hij;
    [done|].
  apply _add_Ok in Hadd as (it & _ & Hall & ->). simpl.
  intros Ha Hbj.
  destruct (decide (j < length (_routes this))%nat) as [Hj|Hj].
  - rewrite lookup_app_l in Ha, Hbj by lia. by apply (IH i j).
  - pose proof (lookup_lt_Some _ _ _ Hbj) as Hlt.
    rewrite length_app in Hlt. simpl in Hlt.
    rewrite lookup_app_l in Ha by lia.
    rewrite lookup_app_r in Hbj by lia.
    destruct (j - length (_routes this))%nat; [|done].
    injection Hbj as <-. rewrite Forall_forall in Hall.
    apply Hall. by eapply list_elem_of_lookup_2.
Qed.

(** No two routes of a built table match the same request, as long as the
    variadic flag of each is backed by a part named [*]. *)
Theorem built_unambiguous this (i j : nat) a b (m : string)
    (parts : list string) :
  built this →
  (∀ it, it ∈ _routes this → wildcard_backed it) →
  i ≠ j → _routes this !! i = Some a → _routes this !! j = Some b →
  matches_ok (matches a m parts) = true →
  matches_ok (matches b m parts) = true →
  False.
Proof.
  intros Hb Hwb Hij Ha Hbj Hma Hmb.
  assert (conflicts a b = false) as Hc.
  { destruct (Nat.lt_total i j) as [Hlt|[?|Hgt]]; [|done|].
    - rewrite conflicts_sym. by apply (built_no_conflict this i j).
    - by apply (built_no_conflict this j i). }
  apply (conflicts_sound a b m parts); try done.
  - apply Hwb. by eapply list_elem_of_lookup_2.
  - apply Hwb. by eapply list_elem_of_lookup_2.
Qed.

Lemma sum_list_positive (l : list nat) :
  (0 < sum_list l)%nat → ∃ i x, l !! i = Some x ∧ (0 < x)%nat.
Proof.
  induction l as [|y l IH]; simpl; [lia|]. intros Hs.
  destruct y as [|y].
  - destruct IH as (i & x & Hi & Hx); [lia|]. by exists (S i), x.
  - exists O, (S y). split; [done|lia].
Qed.

(** The variadic flag of a compiled pattern is backed by a part named [*]
    when every [*] of the pattern stands for a Wildcard. *)
Lemma compiled_wildcard_backed {H : Type} (m : RouterMethod)
    (pattern : string) (h : H) (t : list H) (it : RouterItem H) :
  RouterItem_new (X:=X) m pattern h t = Ok it →
  star_only_as_wildcard pattern → wildcard_backed it.
Proof.
  intros Hnew Hstar Hv.
  apply RouterItem_new_Ok in Hnew as (_ & _ & Hit & Hps).
  rewrite Hit in Hv. simpl in Hv. rewrite includes_occurrences in Hv.
  rewrite <- (join_split slash pattern), occurrences_join in Hv by done.
  destruct (sum_list_positive (occurrences star <$> split slash pattern))
    as (i & x & Hi & Hx).
  { destruct (sum_list _); [done|lia]. }
  rewrite list_lookup_fmap in Hi.
  destruct (split slash pattern !! i) as [piece|] eqn:Ei; [|done].
  injection Hi as <-.
  assert (piece ∈ segments pattern) as Hin.
  { apply list_elem_of_filter.
    split; [destruct piece; [simpl in Hx; lia|done]|].
    by eapply list_elem_of_lookup_2. }
  apply list_elem_of_lookup in Hin as (k & Hk).
  destruct (Forall2_lookup_l _ _ _ _ _ Hps Hk) as (p & Hp & Hcp).
  exists p. split; [by eapply list_elem_of_lookup_2|].
  unfold compile_part in Hcp. rewrite !includes_occurrences in Hcp.
  destruct (Nat.eqb_spec (occurrences colon piece) 0) as [Hc|Hc];
    simpl in Hcp.
  - destruct (Nat.eqb_spec (occurrences star piece) 0); [lia|]. simpl in Hcp.
    destruct (Nat.eqb (String.length piece) 1); [|done].
    by injection Hcp as <-.
  - rewrite (Hstar piece) in Hcp; [by injection Hcp as <-| |lia|done].
    by eapply list_elem_of_lookup_2.
Qed.

(** Every route of a built table is the compiled form of its own
    pattern. *)
Lemma built_compiled this it :
  built this → it ∈ _routes this →
  ∃ h t, RouterItem_new (X:=X) (_method it) (_pattern it) h t = Ok it.
Proof.
  intros Hb. revert it.
  induction Hb as [|m pattern h t this this' _ IH Hadd]; intros it;
    [by intros ?%elem_of_nil|].
  apply _add_Ok in Hadd as (it' & Hnew & _ & ->). simpl.
  intros [Hin|Hin%list_elem_of_singleton]%elem_of_app; [by apply IH|].
  subst it'. exists h, t.
  pose proof (RouterItem_new_Ok m pattern h t it Hnew) as (_ & _ & Hit & _).
  by rewrite Hit at 1 2.
Qed.

(** X1. No two routes of a built table match the same request, as long as
    every [*] of the registered patterns stands for a Wildcard. *)
Theorem registered_routes_unambiguous this (i j : nat) a b (m : string)
    (parts : list string) :
  built this →
  (∀ it, it ∈ _routes this → star_only_as_wildcard (_pattern it)) →
  i ≠ j → _routes this !! i = Some a → _routes this !! j = Some b →
  ¬ (matches_ok (matches a m parts) = true
     ∧ matches_ok (matches b m parts) = true).
Proof.
  intros Hb Hstar Hij Ha Hbj [Hma Hmb].
  apply (built_unambiguous this i j a b m parts); try done.
  intros it Hit. destruct (built_compiled this it Hb Hit) as (h & t & Hnew).
  eapply compiled_wildcard_backed; [done|]. by apply Hstar.
Qed.

(** ** C7 *)

(** C7. For every method, registering [/users/active] after [/users/:id]
    throws the conflict error at registration, whatever was registered
    before, and leaves the table as it was; registering [POST /a/:x] after
    [GET /a/:x] succeeds; and [conflicts] is false whenever the methods of
    the two patterns differ. *)
Theorem conflict_found_at_registration (m : RouterMethod)
    (h h' : RouterHandler T W X) (t t' : list (RouterHandler T W X)) :
  (∃ a b, _add m "/users/:id" h t (mkRouter []) = (Ok tt, mkRouter [a])
          ∧ RouterItem_new (X:=X) m "/users/active" h' t' = Ok b
          ∧ _add m "/users/active" h' t' (mkRouter [a])
            = (Throw (conflict_error b a), mkRouter [a]))
  ∧ (∀ this this1, _add m "/users/:id" h t this = (Ok tt, this1) →
       ∃ b j, RouterItem_new (X:=X) m "/users/active" h' t' = Ok b
              ∧ j ∈ _routes this1
              ∧ _add m "/users/active" h' t' this1
                = (Throw (conflict_error b j), this1))
  ∧ (∃ a b, _add GET "/a/:x" h t (mkRouter []) = (Ok tt, mkRouter [a])
            ∧ _add POST "/a/:x" h' t' (mkRouter [a])
              = (Ok tt, mkRouter [a; b]))
  ∧ (∀ a b, _method a ≠ _method b → conflicts a b = false).
Proof.
  split; [|split; [|split]].
  - do 2 eexists. repeat split; destruct m; reflexivity.
  - intros this this1 Hadd. apply _add_Ok in Hadd as (a & Ha & _ & ->).
    assert (∃ b, RouterItem_new (X:=X) m "/users/active" h' t' = Ok b
                 ∧ conflicts b a = true) as (b & Hb & Hc).
    { eexists. split; [reflexivity|].
      assert (Ok (E:=JsError X) a
              = Ok (mkItem m "/users/:id" (h :: t)
                      [mkPart "users" false; mkPart "id" true] false))
        as [= ->] by (by rewrite <- Ha).
      by destruct m. }
    destruct (check_conflicts_Throw b (_routes this ++ [a]) a)
      as (j & Hj & _ & Hthrow); [set_solver|done|].
    exists b, j. split; [done|]. split; [done|].
    unfold _add. cbn [_routes]. by rewrite Hb, Hthrow.
  - do 2 eexists. split; reflexivity.
  - intros a b. apply conflicts_methods_differ.
Qed.

End Built.

(** ** The dispatcher *)

Section Dispatch.
Context {T W X : Type}.
Variable URL_pathname : string → Result (JsError X) string.
Import JSString.

Implicit Types (hs pre post : list (RouterHandler T W X))
  (context : RouterContext T) (w : W) (log : list (Invocation T)).

(** The handlers called are an initial stretch of the chain, each called
    once, in order, with the context the loop was started with. *)
Lemma run_handlers_log (ri hi : nat) hs context w :
  ∃ k, (k ≤ length hs)%nat
       ∧ (run_handlers ri hi hs context w).1.2
         = (fun n => mkInv ri n context) <$> seq hi k.
Proof.
  revert hi w. induction hs as [|h hs IH]; intros hi w; simpl.
  - exists O. split; [lia|done].
  - destruct (h context w) as [w1 [[]|e|]]; simpl.
    + destruct (IH (S hi) w1) as (k & Hk & Hlog).
      destruct (run_handlers ri (S hi) hs context w1) as [[w2 log] e].
      simpl in *. exists (S k). split; [lia|]. simpl. by rewrite Hlog.
    + exists 1%nat. split; [lia|done].
    + exists 1%nat. split; [lia|done].
    + exists 1%nat. split; [lia|done].
Qed.

(** A chain whose first handlers all continue runs its remaining handlers
    from the world those left, with the same context. *)
Lemma run_handlers_app (ri hi : nat) pre post context w w1 log1 :
  run_handlers ri hi pre context w = (w1, log1, Completed) →
  run_handlers ri hi (pre ++ post) context w
  = let '(w2, log2, e) :=
      run_handlers ri (hi + length pre) post context w1 in
    (w2, log1 ++ log2, e).
Proof.
  revert hi w log1. induction pre as [|h pre IH]; intros hi w log1; simpl.
  - intros [= -> <-]. rewrite Nat.add_0_r.
    by destruct (run_handlers ri hi post context w1) as [[? ?] ?].
  - destruct (h context w) as [w' [[]|e|]]; simpl; try done.
    destruct (run_handlers ri (S hi) pre context w') as [[w2 log2] e] eqn:E.
    intros [= -> <- ->]. rewrite (IH (S hi) w' log2 E).
    rewrite Nat.add_succ_r. simpl.
    by destruct (run_handlers ri _ post context w1) as [[? ?] ?].
Qed.

(** ** C5 *)

(** C5. The handler loop calls an initial stretch of the chain, each
    handler once, in registration order, each with the one context it was
    started with.  When the handlers before [h] have all invoked their
    continuation and [h] settles without having invoked its own, the loop
    stops: [h] is the last handler called and the world is the one [h]
    left.  When [h] has invoked its continuation, the loop goes on with the
    handlers after [h], from the world [h] left and with the same
    context: the handler that follows [h], if any, is the next one called,
    with that context. *)
Theorem handlers_run_in_order_until_one_stops (ri : nat) pre post
    (h : RouterHandler T W X) context w :
  (∃ k, (k ≤ length (pre ++ h :: post))%nat
        ∧ (run_handlers ri 0 (pre ++ h :: post) context w).1.2
          = (fun n => mkInv ri n context) <$> seq 0 k)
  ∧ (∀ w1 log1 w2,
       run_handlers ri 0 pre context w = (w1, log1, Completed) →
       h context w1 = (w2, Fulfilled false) →
       run_handlers ri 0 (pre ++ h :: post) context w
       = (w2, log1 ++ [mkInv ri (length pre) context], Stopped))
  ∧ (∀ w1 log1 w2,
       run_handlers ri 0 pre context w = (w1, log1, Completed) →
       h context w1 = (w2, Fulfilled true) →
       run_handlers ri 0 (pre ++ h :: post) context w
       = let '(w3, log3, e) :=
           run_handlers ri (S (length pre)) post context w2 in
         (w3, log1 ++ mkInv ri (length pre) context :: log3, e))
  ∧ (∀ w1 log1 w2 h' post',
       run_handlers ri 0 pre context w = (w1, log1, Completed) →
       h context w1 = (w2, Fulfilled true) →
       post = h' :: post' →
       ∃ log',
         (run_handlers ri 0 (pre ++ h :: post) context w).1.2
         = log1 ++ mkInv ri (length pre) context
                :: mkInv ri (S (length pre)) context :: log').
Proof.
  assert (∀ w1 log1 w2,
            run_handlers ri 0 pre context w = (w1, log1, Completed) →
            h context w1 = (w2, Fulfilled true) →
            run_handlers ri 0 (pre ++ h :: post) context w
            = let '(w3, log3, e) :=
                run_handlers ri (S (length pre)) post context w2 in
              (w3, log1 ++ mkInv ri (length pre) context :: log3, e))
    as Hgo.
  { intros w1 log1 w2 Hpre Hh.
    rewrite (run_handlers_app _ _ _ _ _ _ _ _ Hpre). simpl. rewrite Hh. simpl.
    by destruct (run_handlers ri _ post context w2) as [[? ?] ?]. }
  split; [apply run_handlers_log|]. split; [|split; [done|]].
  - intros w1 log1 w2 Hpre Hh.
    rewrite (run_handlers_app _ _ _ _ _ _ _ _ Hpre). simpl. by rewrite Hh.
  - intros w1 log1 w2 h' post' Hpre Hh ->.
    rewrite (Hgo w1 log1 w2 Hpre Hh). simpl.
    destruct (h' context w2) as [w3 [[]|e|]]; simpl; eauto.
    destruct (run_handlers ri _ post' context w3) as [[? ?] ?]. simpl. eauto.
Qed.

Lemma process_routes_skip (ri : nat)
    (pre rest : list (RouterItem (RouterHandler T W X)))
    (r : ServerRequest) (p : T) (parts : list string) w :
  Forall (fun x => matches_ok (matches x (method r) parts) = false) pre →
  process_routes ri (pre ++ rest) r p parts w
  = process_routes (ri + length pre) rest r p parts w.
Proof.
  intros Hall. revert ri.
  induction Hall as [|x pre Hx _ IH]; intros ri; simpl.
  - by rewrite Nat.add_0_r.
  - rewrite Hx, IH. f_equal. lia.
Qed.

Lemma process_routes_false (ri : nat)
    (routes : list (RouterItem (RouterHandler T W X)))
    (r : ServerRequest) (p : T) (parts : list string) w w' log :
  process_routes ri routes r p parts w = (w', log, Fulfilled false) →
  Forall (fun x => matches_ok (matches x (method r) parts) = false) routes.
Proof.
  revert ri. induction routes as [|x routes IH]; intros ri; simpl; [done|].
  destruct (matches_ok (matches x (method r) parts)) eqn:E.
  - destruct (run_handlers _ _ _ _ _) as [[? ?] []]; simpl; done.
  - intros Hp. constructor; [done|]. by apply (IH (S ri)).
Qed.

(** ** C4 *)

(** C4. Once the request URL has been parsed, [process] tries the routes
    in registration order.  When no route matches it returns [false],
    having called no handler and changed nothing.  Otherwise the first
    route that matches is the one dispatched, whatever routes come after
    it: only its handlers are called, with a context holding the params
    its [matches] bound, and [process] returns [true] however the chain
    ended, by a handler that did not continue (the first one included) or
    by running out of handlers.  [process] returns [false] only when no
    route matches. *)
Theorem first_match_wins (this : @Router T W X) (r : ServerRequest) (p : T)
    w (pathname : string) :
  URL_pathname (url r) = Ok pathname →
  let parts := segments pathname in
  let hit x := matches_ok (matches x (method r) parts) in
  (Forall (fun x => hit x = false) (_routes this) →
   process URL_pathname this r p w = (w, [], Fulfilled false))
  ∧ (∀ before route later,
       _routes this = before ++ route :: later →
       Forall (fun x => hit x = false) before → hit route = true →
       let context := mkContext r p (params (matches route (method r) parts)) in
       (∀ w' log e,
          run_handlers (length before) 0 (_handlers route) context w = (w', log, e) →
          process URL_pathname this r p w = (w', log, after_chain e)
          ∧ (e = Completed ∨ e = Stopped →
             process URL_pathname this r p w = (w', log, Fulfilled true))
          ∧ Forall (fun i => inv_route i = length before
                             ∧ inv_context i = context) log)
       ∧ (∀ h rest w1,
            _handlers route = h :: rest →
            h context w = (w1, Fulfilled false) →
            process URL_pathname this r p w
            = (w1, [mkInv (length before) 0 context], Fulfilled true)))
  ∧ (∀ w' log,
       process URL_pathname this r p w = (w', log, Fulfilled false) →
       Forall (fun x => hit x = false) (_routes this) ∧ w' = w ∧ log = []).
Proof.
  intros Hurl parts hit. unfold process. rewrite Hurl. fold parts.
  split; [|split].
  - intros Hall.
    rewrite <- (app_nil_r (_routes this)), process_routes_skip by done.
    done.
  - intros before route later Hroutes Hbefore Hroute.
    set (context := mkContext r p (params (matches route (method r) parts))).
    rewrite Hroutes.
    rewrite process_routes_skip by done. simpl.
    fold parts. unfold hit in Hroute. rewrite Hroute. fold context.
    split.
    + intros w' log e Hrun. rewrite Hrun. split; [done|].
      split; [by intros [->| ->]|].
      destruct (run_handlers_log (length before) 0 (_handlers route) context w)
        as (k & _ & Hlog).
      rewrite Hrun in Hlog. simpl in Hlog. rewrite Hlog.
      apply Forall_fmap, Forall_forall. done.
    + intros h rest w1 -> Hh. simpl. by rewrite Hh.
  - intros w' log Hp. pose proof (process_routes_false _ _ _ _ _ _ _ _ Hp) as Hall.
    split; [done|].
    rewrite <- (app_nil_r (_routes this)), process_routes_skip in Hp by done.
    simpl in Hp. by injection Hp as <- <-.
Qed.

End Dispatch.

(** ** The [bodyJSON] middleware *)

Section BodyFacts.
Context {X Json : Type}.
Variable JSON_parse : string → Result string Json.
Variable decodeURIComponent : string → Result X string.

Abbreviation decode := (readBodyAsJSON JSON_parse decodeURIComponent).
Abbreviation middleware := (bodyJSON JSON_parse decodeURIComponent).

Implicit Types (w : World X Json) (context : RouterContext nat)
  (v : BodyValue Json).

(** Decoding the body sends no response and touches no props object. *)
Lemma readBodyAsJSON_frame (r : ServerRequest) w :
  responses (decode r w).1 = responses w
  ∧ objects (decode r w).1 = objects w.
Proof.
  unfold readBodyAsJSON, readBodyAsText.
  destruct (__bodyjson w); [done|].
  destruct (__bodytext w).
  - destruct (bool_decide _); [by destruct (JSON_parse _)|].
    destruct (bool_decide _); [by destruct (decodeURIComponent _)|done].
  - destruct (wire_body w); try done.
    destruct (bool_decide _); [by destruct (JSON_parse _)|].
    destruct (bool_decide _); [by destruct (decodeURIComponent _)|done].
Qed.

(** Which failure [readBodyAsJSON] reports once the body text is at hand:
    a content type other than the two it decodes is an unsupported media
    type, JSON text that does not parse is a parse error. *)
Lemma readBodyAsJSON_failures (r : ServerRequest) w (text : string) :
  __bodyjson w = None → __bodytext w = Some text →
  (headers_get r "Content-Type" ≠ Some "application/json" →
   headers_get r "Content-Type" ≠ Some "application/x-www-form-urlencoded" →
   decode r w
   = (w, Rejected (UnsupportedMediaTypeError
                     (not_supported (headers_get r "Content-Type")))))
  ∧ (∀ message, headers_get r "Content-Type" = Some "application/json" →
       JSON_parse text = Throw message →
       decode r w = (w, Rejected (JSONParseError message)))
  ∧ (∀ j, headers_get r "Content-Type" = Some "application/json" →
       JSON_parse text = Ok j →
       decode r w = (set_bodyjson (Parsed j) w, Fulfilled (Parsed j))).
Proof.
  intros Hj Ht. unfold readBodyAsJSON, readBodyAsText. rewrite Hj, Ht.
  split; [|split].
  - intros H1 H2. by rewrite !bool_decide_eq_false_2.
  - intros message H1 ->. by rewrite bool_decide_eq_true_2.
  - intros j H1 ->. by rewrite bool_decide_eq_true_2.
Qed.

(** ** C9 *)

(** C9. What the handler [bodyJSON(key)] does, by the way decoding the body
    ends.  Decoded to [v]: it stores [v] under [key] in the props object of
    the context, leaves every other property and object alone, sends no
    response, and invokes its continuation.  Unsupported media type: it
    responds 415; JSON parse error: 400; any other error: 500; in these
    three cases it sends that one response, stores nothing and settles
    without having invoked its continuation, so that the handler loop
    stops after it and calls none of the handlers that follow. *)
Theorem bodyJSON_stores_or_responds (key : string) context w :
  let out := middleware key context w in
  let failing (st : nat) :=
    out.2 = Fulfilled false
    ∧ responses out.1 = responses w ++ [mkResponse st]
    ∧ objects out.1 = objects w
    ∧ ∀ ri post, run_handlers ri 0 (middleware key :: post) context w
                 = (out.1, [mkInv ri 0 context], Stopped) in
  (∀ w1 v, decode (req context) w = (w1, Fulfilled v) →
     out.2 = Fulfilled true
     ∧ objects out.1 (props context) !! key = Some v
     ∧ (∀ l k, (l, k) ≠ (props context, key) →
               objects out.1 l !! k = objects w l !! k)
     ∧ responses out.1 = responses w)
  ∧ (∀ w1 message,
       decode (req context) w
       = (w1, Rejected (UnsupportedMediaTypeError message)) → failing 415%nat)
  ∧ (∀ w1 message,
       decode (req context) w = (w1, Rejected (JSONParseError message)) →
       failing 400%nat)
  ∧ (∀ w1 e,
       decode (req context) w = (w1, Rejected e) →
       (∀ message, e ≠ UnsupportedMediaTypeError message) →
       (∀ message, e ≠ JSONParseError message) →
       failing 500%nat).
Proof.
  intros out failing. subst out failing. cbn zeta.
  pose proof (readBodyAsJSON_frame (req context) w) as [Hresp Hobj].
  unfold run_handlers, bodyJSON in *.
  destruct (decode (req context) w) as [w1' r] eqn:E. simpl in Hresp, Hobj.
  split; [|split; [|split]].
  - intros w1 v [= <- ->]. simpl. split; [done|].
    rewrite Nat.eqb_refl, lookup_insert_eq. split; [done|].
    split; [|done]. intros l k Hne.
    destruct (Nat.eqb_spec l (props context)) as [->|Hl];
      [|by rewrite Hobj].
    rewrite lookup_insert_ne by congruence. by rewrite Hobj.
  - intros w1 message [= <- ->]. simpl. by rewrite Hresp, Hobj.
  - intros w1 message [= <- ->]. simpl. by rewrite Hresp, Hobj.
  - intros w1 e [= <- ->] H1 H2.
    destruct e as [msg|msg|msg|x]; simpl; rewrite ?Hresp, ?Hobj; try done.
    + by destruct (H2 msg).
    + by destruct (H1 msg).
Qed.

End BodyFacts.

(** ** The properties at concrete inputs *)

Section Concrete.
Import JSString.

(** C1 (what the code does at the failing input). On an empty router,
    [GET('/:a*', h)] and then [GET('/x/y', h')] both succeed: the second
    pattern does not conflict with the first.  Yet both compiled patterns
    match the request [GET /x/y], the first because its variadic flag is
    set although it has no part named [*]. *)
Theorem two_registered_routes_match_one_request {T W X : Type}
    (h h' : RouterHandler T W X) :
  ∃ a b, _add GET "/:a*" h [] (mkRouter []) = (Ok tt, mkRouter [a])
         ∧ _add GET "/x/y" h' [] (mkRouter [a]) = (Ok tt, mkRouter [a; b])
         ∧ built (mkRouter [a; b])
         ∧ conflicts b a = false
         ∧ matches_ok (matches a "GET" (segments "/x/y")) = true
         ∧ matches_ok (matches b "GET" (segments "/x/y")) = true.
Proof.
  do 2 eexists. split; [reflexivity|]. split; [reflexivity|].
  split; [|done].
  eapply (built_add GET "/x/y" h' []);
    [eapply (built_add GET "/:a*" h []); [apply built_new|reflexivity]|].
  reflexivity.
Qed.

(** C8 (what the code does at the failing input). The pattern [/:a*] is
    accepted and compiles to the single Named part [a*], no Wildcard part,
    with the variadic flag set. *)
Theorem variadic_without_wildcard {H X : Type} (m : RouterMethod) (h : H)
    (t : list H) :
  ∃ it, RouterItem_new (X:=X) m "/:a*" h t = Ok it
        ∧ _parts it = [mkPart "a*" true]
        ∧ Forall (fun p => is_wildcard p = false) (_parts it)
        ∧ _variadic it = true.
Proof.
  eexists. split; [reflexivity|]. simpl. repeat split. by repeat constructor.
Qed.

(** C2 fails on [/files]: the pattern [/files/*] has two parts and the
    request one segment. *)
Lemma files_star_rejects_files :
  ∃ it, RouterItem_new (H:=unit) (X:=unit) GET "/files/*" tt [] = Ok it
        ∧ matches_ok (matches it "GET" (segments "/files")) = false.
Proof. eexists. split; reflexivity. Qed.

(** C2 (as the code has it). For every registered method, with the request
    method equal to it: [/files/*] matches [/files/a] and [/files/a/b/c],
    binding [*] to [a] and [a/b/c] and nothing else, and does not match
    [/files]; [/files/:name] matches [/files/a], binding [name] to [a] and
    nothing else, and does not match [/files/a/b]. *)
Theorem files_patterns_match {H X : Type} (m : RouterMethod) (h : H)
    (t : list H) :
  ∃ star_item name_item,
    RouterItem_new (X:=X) m "/files/*" h t = Ok star_item
    ∧ RouterItem_new (X:=X) m "/files/:name" h t = Ok name_item
    ∧ matches star_item (method_string m) (segments "/files/a")
      = mkMatch true {["*" := Str "a"]}
    ∧ matches star_item (method_string m) (segments "/files/a/b/c")
      = mkMatch true {["*" := Str "a/b/c"]}
    ∧ matches star_item (method_string m) (segments "/files")
      = mkMatch false ∅
    ∧ matches name_item (method_string m) (segments "/files/a")
      = mkMatch true {["name" := Str "a"]}
    ∧ matches name_item (method_string m) (segments "/files/a/b")
      = mkMatch false ∅.
Proof.
  do 2 eexists. split; [reflexivity|]. split; [reflexivity|].
  destruct m; repeat split; reflexivity.
Qed.

(** C3 fails on [/a/*/b]: two requests that agree up to and including the
    segment the Wildcard is reached at, and differ only after it, are told
    apart by the literal part declared after the Wildcard. *)
Lemma part_after_wildcard_fails_match :
  ∃ it, RouterItem_new (H:=unit) (X:=unit) GET "/a/*/b" tt [] = Ok it
        ∧ _parts it !! 1%nat = Some (mkPart "*" true)
        ∧ matches_ok (matches it "GET" ["a"; "x"; "b"]) = true
        ∧ matches_ok (matches it "GET" ["a"; "x"; "c"]) = false.
Proof. eexists. repeat split; reflexivity. Qed.

Lemma wildcard_binds_rest_and_walk_goes_on_witness :
  params (matches (mkItem GET "/a/*/b" [tt]
                     [mkPart "a" false; mkPart "*" true; mkPart "b" false]
                     true)
            "get" ["a"; "x"; "b"]) !! "*"
  = Some (Str "x/b").
Proof.
  exact (proj2 (proj2 (wildcard_binds_rest_and_walk_goes_on (X:=unit)
                         GET "/a/*/b" tt [] _ "get" ["a"; "x"; "b"] 1
                         eq_refl eq_refl))
               eq_refl).
Defined.

(** C6 fails on the piece [:*], a [*] together with another character:
    [/a/:*] is registered, and the table grows. *)
Lemma star_after_colon_is_registered :
  ∃ a, _add GET "/a/:*" (note "a" true) [] (mkRouter [])
       = (Ok tt, mkRouter [a])
       ∧ _parts a = [mkPart "a" false; mkPart "*" true].
Proof. eexists. split; reflexivity. Qed.

Lemma failed_registration_changes_nothing_witness :
  ∃ msg, _add GET "/a/b*" (note "a" true) [] sample_table
         = (Throw (Error msg), sample_table).
Proof.
  refine (proj1 (failed_registration_changes_nothing
                   GET "/a/b*" (note "a" true) [] sample_table) _).
  right. right. exists "b*". split.
  - apply list_elem_of_In. vm_compute. tauto.
  - right. split; [reflexivity|]. split; [vm_compute; lia|done].
Defined.

Lemma colon_star_compiles_as_wildcard_witness :
  compiled_shape (RouterItem_new (X:=unit) GET "/a/:*" tt [])
  = compiled_shape (RouterItem_new (X:=unit) GET "/a/*" tt []).
Proof.
  exact (proj1 (proj2 (colon_star_compiles_as_wildcard (X:=unit)
                         GET "/a/:*" 2 tt [] eq_refl))).
Defined.

Lemma first_match_wins_witness :
  process plain_path sample_table (sample_request "GET" "/b/7") tt []
  = (["b1"],
     [mkInv 1 0 (mkContext (sample_request "GET" "/b/7") tt
                   {["id" := Str "7"]})],
     Fulfilled true).
Proof.
  refine (proj2 (proj1 (proj2 (first_match_wins plain_path sample_table
                                 (sample_request "GET" "/b/7") tt [] "/b/7"
                                 eq_refl))
                   [mkItem GET "/a" [note "a" true] [mkPart "a" false] false]
                   _ _ eq_refl _ eq_refl)
            _ _ _ eq_refl eq_refl).
  constructor; [reflexivity|constructor].
Defined.

Lemma handlers_run_in_order_until_one_stops_witness :
  run_handlers 0 0 ([note "1" true] ++ note "2" false :: [note "3" true])
    (mkContext (sample_request "GET" "/") tt ∅) []
  = (["1"; "2"],
     [mkInv 0 0 (mkContext (sample_request "GET" "/") tt ∅)]
     ++ [mkInv 0 1 (mkContext (sample_request "GET" "/") tt ∅)],
     Stopped).
Proof.
  exact (proj1 (proj2 (handlers_run_in_order_until_one_stops 0
                         [note "1" true] [note "3" true] (note "2" false)
                         (mkContext (sample_request "GET" "/") tt ∅) []))
               _ _ _ eq_refl eq_refl).
Defined.

Lemma bodyJSON_stores_or_responds_witness :
  (let out := bodyJSON strict_parse lenient_decode "body"
                (mkContext plain_text_request 0%nat ∅) plain_text_world in
   out.2 = Fulfilled false ∧ responses out.1 = [] ++ [mkResponse 415])
  ∧ (let out := bodyJSON strict_parse lenient_decode "body"
                  (mkContext json_request 0%nat ∅) (json_world "{") in
     out.2 = Fulfilled false ∧ responses out.1 = [] ++ [mkResponse 400])
  ∧ (let out := bodyJSON strict_parse lenient_decode "body"
                  (mkContext json_request 0%nat ∅) (json_world "{}") in
     out.2 = Fulfilled true
     ∧ objects out.1 0%nat !! "body" = Some (Parsed tt)).
Proof.
  split; [|split].
  - destruct (proj1 (proj2 (bodyJSON_stores_or_responds strict_parse
                              lenient_decode "body"
                              (mkContext plain_text_request 0%nat ∅)
                              plain_text_world))
                    _ _ eq_refl) as (Hnext & Hresp & _).
    exact (conj Hnext Hresp).
  - destruct (proj1 (proj2 (proj2 (bodyJSON_stores_or_responds strict_parse
                              lenient_decode "body"
                              (mkContext json_request 0%nat ∅)
                              (json_world "{"))))
                    _ _ eq_refl) as (Hnext & Hresp & _).
    exact (conj Hnext Hresp).
  - destruct (proj1 (bodyJSON_stores_or_responds strict_parse
                       lenient_decode "body"
                       (mkContext json_request 0%nat ∅) (json_world "{}"))
                    _ _ eq_refl) as (Hnext & Hstored & _).
    exact (conj Hnext Hstored).
Defined.

End Concrete.

(** * Further properties of the router *)

(** ** The result of [matches] *)

Section MatchResults.
Context {H X : Type}.
Import JSString.

Implicit Types (it : RouterItem H) (rest : list RouterItemPart)
  (ps : gmap string JsStr).




Lemma matches_loop_keys rest (parts : list string) (i : nat) ps (k : string) :
  matches_ok (matches_loop rest parts i ps) = true →
  (is_Some (params (matches_loop rest parts i ps) !! k)
   ↔ is_Some (ps !! k)
     ∨ ∃ p, p ∈ rest ∧ param p = true ∧ name p = k).
Proof.
  revert i ps. induction rest as [|lp rest IH]; intros i ps; simpl.
  - intros _. split; [by left|]. intros [?|(? & ?%elem_of_nil & _)]; done.
  - assert (∀ v, is_Some (js_set (name lp) v ps !! k)
                 ↔ is_Some (ps !! k) ∨ name lp = k) as Hset.
    { intros v. unfold js_set. destruct (decide (name lp = k)) as [->|Hne].
      - rewrite lookup_insert_eq. split; [by right|by eexists].
      - rewrite lookup_insert_ne by done. split; [by left|by intros [?|?]]. }
    destruct (param lp) eqn:Pl.
    + destruct (String.eqb (name lp) "*"); intros Hok;
        rewrite (IH _ _ Hok), Hset; split.
      all: try (intros [[?|?]|(p & Hp & ? & ?)];
                [by left|right; exists lp; split; [left|done]
                |right; exists p; split; [by right|done]]).
      all: intros [?|(p & [->|Hp]%elem_of_cons & ? & ?)];
           [by left; left|by left; right|right; by exists p].
    + destruct (negb _); [done|]. intros Hok. rewrite (IH _ _ Hok). split.
      * intros [?|(p & Hp & ? & ?)]; [by left|].
        right. exists p. split; [by right|done].
      * intros [?|(p & [->|Hp]%elem_of_cons & ? & ?)]; [by left|congruence|].
        right. by exists p.
Qed.



End MatchResults.

(** ** The compiler and the conflict check, further *)

Section CompileMore.
Context {H X : Type}.
Import JSString.

Implicit Types (it : RouterItem H).




Lemma conflicts_walk_refl (l : list RouterItemPart) : conflicts_walk l l = true.
Proof.
  induction l as [|p l IH]; simpl; [done|].
  destruct (String.eqb (name p) "*"); simpl; [done|].
  destruct (param p); simpl; [done|]. by rewrite String.eqb_refl.
Qed.

(** X5. [conflicts] does not depend on which pattern is asked about which,
    and every pattern conflicts with itself. *)
Theorem conflicts_symmetric_reflexive (a b : RouterItem H) :
  conflicts a b = conflicts b a ∧ conflicts a a = true.
Proof.
  rewrite !conflicts_unfold, conflicts_walk_refl, (conflicts_walk_sym (_parts a)).
  split; by destruct (_method a), (_method b).
Qed.

Lemma sum_list_filter_eq (f : string → nat) (l : list string) :
  f EmptyString = O →
  sum_list (f <$> filter (fun i => Is_true (truthy i)) l) = sum_list (f <$> l).
Proof.
  intros Hf. induction l as [|s l IH]; [done|].
  rewrite filter_cons, fmap_cons.
  destruct (decide (Is_true (truthy s))) as [|Hs];
    rewrite ?fmap_cons; simpl in *; [lia|].
  destruct s; [lia|]. by destruct Hs.
Qed.

(** The non-empty pieces of a pattern hold all its [*]. *)
Lemma segments_occurrences_eq (pattern : string) :
  sum_list (occurrences star <$> segments pattern) = occurrences star pattern.
Proof.
  rewrite <- (join_split slash pattern) at 2.
  rewrite occurrences_join by done. by apply sum_list_filter_eq.
Qed.

Lemma same_segments_same_shape (m : RouterMethod) (p p' : string) (h h' : H)
    (t t' : list H) :
  p ≠ EmptyString → p' ≠ EmptyString → segments p = segments p' →
  compiled_shape (RouterItem_new (X:=X) m p h t)
  = compiled_shape (RouterItem_new (X:=X) m p' h' t').
Proof.
  intros Hp Hp' Hseg. unfold RouterItem_new.
  rewrite !length_eqb_0 by done.
  rewrite !indexOf_lastIndexOf_occurrences, !includes_occurrences.
  rewrite <- (segments_occurrences_eq p), <- (segments_occurrences_eq p'), Hseg.
  destruct (Nat.leb _ 1); simpl; [|done].
  pose proof (compile_parts_returned (X:=X) p p' (segments p') (segments p')
                []) as Hret.
  unfold compiled_shape.
  destruct (compile_parts p (segments p') []) as [ps|e],
           (compile_parts p' (segments p') []) as [ps'|e']; simpl in *.
  - assert (Some ps = Some ps') as [= ->]; [|done].
    apply Hret. apply Forall2_same_length_lookup_2; [done|].
    intros i x y Hx Hy. assert (x = y) as -> by congruence.
    apply compile_part_pattern.
  - exfalso. assert (Some ps = None) as Habs; [|done].
    apply Hret. apply Forall2_same_length_lookup_2; [done|].
    intros i x y Hx Hy. assert (x = y) as -> by congruence.
    apply compile_part_pattern.
  - exfalso. assert (None = Some ps') as Habs; [|done].
    apply Hret. apply Forall2_same_length_lookup_2; [done|].
    intros i x y Hx Hy. assert (x = y) as -> by congruence.
    apply compile_part_pattern.
  - done.
Qed.

(** X6. Slashes only separate: two non-empty patterns with the same
    non-empty [/]-separated pieces (leading, trailing and doubled slashes
    aside) compile to the same method, parts and variadic flag, or are both
    rejected; the compiled patterns match the same requests with the same
    params. *)
Theorem slashes_only_separate (m : RouterMethod) (p p' : string) (h h' : H)
    (t t' : list H) :
  p ≠ EmptyString → p' ≠ EmptyString → segments p = segments p' →
  compiled_shape (RouterItem_new (X:=X) m p h t)
  = compiled_shape (RouterItem_new (X:=X) m p' h' t')
  ∧ ∀ a b, RouterItem_new (X:=X) m p h t = Ok a →
           RouterItem_new (X:=X) m p' h' t' = Ok b →
           ∀ rm parts, matches a rm parts = matches b rm parts.
Proof.
  intros Hp Hp' Hseg.
  pose proof (same_segments_same_shape m p p' h h' t t' Hp Hp' Hseg) as Hs.
  split; [done|]. intros a b Ha Hb rm parts. rewrite Ha, Hb in Hs.
  apply matches_shape. unfold compiled_shape in Hs. simpl in Hs. congruence.
Qed.

Lemma compile_part_unparse (pattern piece : string) (p : RouterItemPart) :
  compile_part (X:=X) pattern piece = Ok p →
  (piece = unparse p ∨ (piece = "*" ∧ p = mkPart "*" true))
  ∧ (param p = false →
     occurrences colon (name p) = O ∧ occurrences star (name p) = O).
Proof.
  unfold compile_part. rewrite !includes_occurrences.
  destruct (Nat.eqb_spec (occurrences colon piece) 0) as [Hc|Hc]; simpl.
  - destruct (Nat.eqb_spec (occurrences star piece) 0) as [Hs|Hs]; simpl.
    + intros [= <-]. split; [by left|done].
    + destruct (Nat.eqb_spec (String.length piece) 1) as [Hl|Hl]; [|done].
      intros [= <-]. split; [|done]. right. split; [|done].
      apply one_star; [lia|done].
  - destruct (_ && _)%bool eqn:E; [|done].
    apply first_and_only in E as (r & -> & _).
    intros [= <-]. split; [by left|done].
Qed.

(** X7. The parts of a compiled pattern are its non-empty pieces, in
    order: a literal part is its piece, which holds neither [:] nor [*]; a
    parameter part is its piece without the leading [:], or the part named
    [*] for the piece [*]; and at most one part is named [*]. *)
Theorem parts_spell_the_pieces (m : RouterMethod) (pattern : string) (h : H)
    (t : list H) it :
  RouterItem_new (X:=X) m pattern h t = Ok it →
  Forall2 (fun piece p => piece = unparse p
                          ∨ (piece = "*" ∧ p = mkPart "*" true))
          (segments pattern) (_parts it)
  ∧ Forall (fun p => param p = false →
                     name p ≠ EmptyString
                     ∧ occurrences colon (name p) = O
                     ∧ occurrences star (name p) = O) (_parts it)
  ∧ (∀ i j p q, _parts it !! i = Some p → _parts it !! j = Some q →
                name p = "*" → name q = "*" → i = j).
Proof.
  intros Hnew.
  pose proof (RouterItem_new_Ok m pattern h t it Hnew) as (_ & _ & _ & Hps).
  split; [|split].
  - eapply Forall2_impl; [done|]. intros piece p Hc.
    by apply compile_part_unparse in Hc as [? _].
  - apply Forall_lookup_2. intros i p Hi Hp.
    destruct (Forall2_lookup_r _ _ _ _ _ Hps Hi) as (piece & Hpiece & Hc).
    pose proof (compile_part_unparse _ _ _ Hc) as [Hun Hfree].
    split; [|by apply Hfree].
    assert (piece = name p) as <-.
    { destruct Hun as [->|[_ ->]]; [|done]. unfold unparse. by rewrite Hp. }
    apply list_elem_of_lookup_2, list_elem_of_filter in Hpiece as [Ht _].
    intros ->. exact Ht.
  - intros i j p q. by apply (compiled_star_unique (X:=X) m pattern h t).
Qed.

Lemma literals_agree_all (l : list RouterItemPart) (parts : list string) :
  Forall (fun p => param p = false) l →
  (length l = length parts ∧ literals_agree l parts 0) ↔ parts = name <$> l.
Proof.
  intros Hall. split.
  - intros [Hlen Hagree]. apply list_eq_same_length with (length l);
      [by rewrite length_fmap|done|].
    intros i x y _ Hx Hy. rewrite list_lookup_fmap in Hy.
    destruct (l !! i) as [p|] eqn:Hp; [|done]. simpl in Hy.
    rewrite Forall_lookup in Hall.
    pose proof (Hagree i p Hp (Hall i p Hp)) as Hi. simpl in Hi. congruence.
  - intros ->. rewrite length_fmap. split; [done|].
    intros j p Hj _. simpl. by rewrite list_lookup_fmap, Hj.
Qed.

(** X8. A compiled pattern without parameter parts matches, for its own
    method in any case, exactly the requests whose segments are the
    non-empty pieces of the pattern, and binds nothing. *)
Theorem literal_pattern_matches_itself (m : RouterMethod) (pattern : string)
    (h : H) (t : list H) it (rm : string) (parts : list string) :
  RouterItem_new (X:=X) m pattern h t = Ok it →
  Forall (fun p => param p = false) (_parts it) →
  (matches_ok (matches it rm parts) = true
   ↔ toUpperCase rm = method_string m ∧ parts = segments pattern)
  ∧ (matches_ok (matches it rm parts) = true →
     params (matches it rm parts) = ∅).
Proof.
  intros Hnew Hlit.
  pose proof (RouterItem_new_Ok m pattern h t it Hnew) as (_ & _ & Hit & Hps).
  assert (name <$> _parts it = segments pattern) as Hnames.
  { apply list_eq_same_length with (length (_parts it));
      [by apply Forall2_length in Hps|by rewrite length_fmap|].
    intros i x y _ Hx Hy. rewrite list_lookup_fmap in Hx.
    destruct (_parts it !! i) as [p|] eqn:Hp; [|done]. simpl in Hx.
    destruct (Forall2_lookup_r _ _ _ _ _ Hps Hp) as (piece & Hpiece & Hc).
    apply compile_part_star in Hc as [_ Hc]. rewrite Forall_lookup in Hlit.
    destruct (Hc (Hlit i p Hp)) as [Hn _]. congruence. }
  assert (_variadic it = false) as Hv.
  { rewrite Hit. simpl. rewrite includes_occurrences.
    rewrite <- segments_occurrences_eq.
    replace (sum_list (occurrences star <$> segments pattern)) with O; [done|].
    symmetry. rewrite <- Hnames, <- list_fmap_compose.
    clear -Hlit Hps. revert Hps. generalize (segments pattern).
    induction (_parts it) as [|p ps IH]; intros pieces Hps; [done|].
    inversion Hps as [|piece ? pieces' ? Hc Hps']; subst.
    inversion_clear Hlit as [|? ? Hp Hlit'].
    apply compile_part_star in Hc as [_ Hc]. destruct (Hc Hp) as [Hn Ho].
    csimpl. rewrite Hn, Ho. simpl. by apply (IH Hlit' pieces'). }
  assert (_method it = m) as Hm by (by rewrite Hit).
  split.
  - rewrite matches_ok_iff, Hv, Hm, <- Hnames.
    rewrite <- (literals_agree_all _ parts Hlit). tauto.
  - intros Hok. unfold matches in *.
    destruct (String.eqb _ _); [|done].
    destruct (_ || _)%bool; [|done].
    apply map_empty. intros k. apply eq_None_not_Some.
    rewrite (matches_loop_keys _ _ _ _ k Hok), lookup_empty.
    intros [[? ?]|(p & Hp & Hparam & _)]; [done|].
    rewrite Forall_forall in Hlit. specialize (Hlit p Hp). congruence.
Qed.

End CompileMore.

(** ** Registration and dispatch, further *)

Section TableMore.
Context {T W X : Type}.
Import JSString.

Implicit Types (this : @Router T W X)
  (a b it route : RouterItem (RouterHandler T W X)).



(** X10. In a table built by registration, no two routes conflict, in
    either order, and every route is the compiled form of its own pattern
    and method, with a handler chain that is not empty. *)
Theorem built_table_invariants this :
  built this →
  (∀ i j a b, i ≠ j → _routes this !! i = Some a →
              _routes this !! j = Some b → conflicts a b = false)
  ∧ (∀ it, it ∈ _routes this →
       ∃ h t, RouterItem_new (X:=X) (_method it) (_pattern it) h t = Ok it
              ∧ _handlers it = h :: t).
Proof.
  intros Hb. split.
  - intros i j a b Hij Ha Hbj.
    destruct (Nat.lt_total i j) as [Hlt|[?|Hgt]]; [|done|].
    + rewrite conflicts_sym. by apply (built_no_conflict this i j).
    + by apply (built_no_conflict this j i).
  - intros it Hit. destruct (built_compiled this it Hb Hit) as (h & t & Hnew).
    exists h, t. split; [done|].
    pose proof (RouterItem_new_Ok _ _ h t it Hnew) as (_ & _ & Hshape & _).
    by rewrite Hshape.
Qed.

End TableMore.

Section DispatchMore.
Context {T W X : Type}.
Variable URL_pathname : string → Result (JsError X) string.
Import JSString.

Implicit Types (this : @Router T W X)
  (a b it route : RouterItem (RouterHandler T W X)).

(** X11. In a table built from patterns whose [*] all stand for a
    Wildcard, the route that matches a request is dispatched wherever it
    stands in the table: [process] runs the handler chain of that route,
    with the params its [matches] bound. *)
Theorem only_matching_route_is_dispatched this (r : ServerRequest) (p : T)
    (w : W) (pathname : string) (j : nat) route :
  built this →
  (∀ it, it ∈ _routes this → star_only_as_wildcard (_pattern it)) →
  URL_pathname (url r) = Ok pathname →
  _routes this !! j = Some route →
  matches_ok (matches route (method r) (segments pathname)) = true →
  process URL_pathname this r p w
  = let '(w', log, e) :=
      run_handlers j 0 (_handlers route)
        (mkContext r p (params (matches route (method r) (segments pathname))))
        w in
    (w', log, after_chain e).
Proof.
  intros Hb Hstar Hurl Hj Hroute. unfold process. rewrite Hurl.
  rewrite <- (take_drop_middle _ _ _ Hj).
  rewrite process_routes_skip.
  - simpl. rewrite Hroute. rewrite length_take_le; [done|].
    apply lookup_lt_Some in Hj. lia.
  - apply Forall_lookup_2. intros i x Hi.
    apply lookup_take_Some in Hi as [Hi Hlt].
    destruct (matches_ok (matches x (method r) (segments pathname))) eqn:E;
      [exfalso|done].
    apply (built_unambiguous this i j x route (method r) (segments pathname));
      try done; [|lia].
    intros it Hit. destruct (built_compiled this it Hb Hit) as (h & t & Hnew).
    eapply compiled_wildcard_backed; [done|]. by apply Hstar.
Qed.

(** X12. [process] catches nothing: when the handlers before [h] in the
    chain of the route dispatched have all continued and [h] throws (or
    its promise is rejected), no later handler is called and the promise of
    [process] is rejected with that same error, in the world [h] left. *)
Theorem handler_error_reaches_caller this (r : ServerRequest) (p : T)
    (w w1 w2 : W) (pathname : string)
    (before later : list (RouterItem (RouterHandler T W X))) route
    (pre post : list (RouterHandler T W X)) (h : RouterHandler T W X)
    (log1 : list (Invocation T)) (e : JsError X) :
  URL_pathname (url r) = Ok pathname →
  _routes this = before ++ route :: later →
  Forall (fun x => matches_ok (matches x (method r) (segments pathname))
                   = false) before →
  matches_ok (matches route (method r) (segments pathname)) = true →
  _handlers route = pre ++ h :: post →
  let context :=
    mkContext r p (params (matches route (method r) (segments pathname))) in
  run_handlers (length before) 0 pre context w = (w1, log1, Completed) →
  h context w1 = (w2, Rejected e) →
  process URL_pathname this r p w
  = (w2, log1 ++ [mkInv (length before) (length pre) context], Rejected e).
Proof.
  intros Hurl Hroutes Hbefore Hroute Hchain context Hpre Hh.
  unfold process. rewrite Hurl, Hroutes, process_routes_skip by done.
  simpl. rewrite Hroute. fold context. rewrite Hchain.
  rewrite (run_handlers_app _ _ _ _ _ _ _ _ Hpre). simpl. by rewrite Hh.
Qed.

Lemma process_routes_true (ri : nat)
    (routes : list (RouterItem (RouterHandler T W X)))
    (r : ServerRequest) (p : T) (parts : list string) (w w' : W)
    (log : list (Invocation T)) :
  Forall (fun it => _handlers it ≠ []) routes →
  process_routes ri routes r p parts w = (w', log, Fulfilled true) →
  ∃ k context rest, log = mkInv k 0 context :: rest.
Proof.
  intros Hall. revert ri.
  induction Hall as [|it routes Hit _ IH]; intros ri; simpl; [done|].
  destruct (matches_ok (matches it (method r) parts)); [|apply IH].
  destruct (_handlers it) as [|h hs]; [done|]. simpl.
  destruct (h _ w) as [w1 [[]|e|]]; simpl.
  - destruct (run_handlers ri 1 hs _ w1) as [[? ?] ?].
    intros Heq. inversion Heq. eauto.
  - intros Heq. inversion Heq. eauto.
  - done.
  - done.
Qed.

(** X13. Over a table built by registration, [process] returns [true]
    only after it has called a handler: the first call it made is to the
    first handler of a route's chain. *)
Theorem handled_means_a_handler_ran this (r : ServerRequest) (p : T)
    (w w' : W) (log : list (Invocation T)) :
  built this →
  process URL_pathname this r p w = (w', log, Fulfilled true) →
  ∃ k context rest, log = mkInv k 0 context :: rest.
Proof.
  intros Hb. unfold process. destruct (URL_pathname (url r)); [|done].
  apply process_routes_true. apply Forall_forall. intros it Hit.
  destruct (built_compiled this it Hb Hit) as (h & t & Hnew).
  pose proof (RouterItem_new_Ok _ _ h t it Hnew) as (_ & _ & Hshape & _).
  by rewrite Hshape.
Qed.

End DispatchMore.

(** * Properties of the body and parameter decoders *)

Section ParamsFacts.
Import JSString.

Abbreviation equals := (ascii_of_nat 61).











End ParamsFacts.

Section DecodeMore.
Context {X Json : Type}.
Variable JSON_parse : string → Result string Json.
Variable decodeURIComponent : string → Result X string.

Abbreviation decode_body := (readBodyAsJSON JSON_parse decodeURIComponent).

Implicit Types (w : World X Json).

Lemma readBodyAsText_again w w1 (res : Promise (JsError X) string) :
  readBodyAsText w = (w1, res) → readBodyAsText w1 = (w1, res).
Proof.
  unfold readBodyAsText. destruct (__bodytext w) as [text|] eqn:Et.
  - intros [= <- <-]. by rewrite Et.
  - destruct (wire_body w) as [text|e|] eqn:Ew; intros [= <- <-]; simpl;
      [done|by rewrite Et, Ew..].
Qed.

(** X17. The decoded body is computed once.  A call of [readBodyAsJSON]
    that yields a value leaves it cached: every later call, whatever the
    headers say by then and without parsing again, yields the same value
    and changes nothing.  A call that fails caches no failure: asked again
    in the world it left, it fails the same way, having read the body
    stream at most once. *)
Theorem readBodyAsJSON_computed_once (r : ServerRequest) w w1
    (res : Promise (JsError X) (BodyValue Json)) :
  decode_body r w = (w1, res) →
  decode_body r w1 = (w1, res)
  ∧ (∀ v, res = Fulfilled v →
       ∀ (parse' : string → Result string Json)
         (decode' : string → Result X string) (r' : ServerRequest),
         readBodyAsJSON parse' decode' r' w1 = (w1, Fulfilled v))
  ∧ (__bodytext w = None → wire_body w ≠ Pending →
     (∀ e, wire_body w ≠ Rejected e) → __bodyjson w = None →
     wire_body w1 = Fulfilled EmptyString ∧ is_Some (__bodytext w1)).
Proof.
  intros Hdec.
  assert (∀ v, __bodyjson w1 = Some v →
            ∀ (parse' : string → Result string Json)
              (decode' : string → Result X string) (r' : ServerRequest),
              readBodyAsJSON parse' decode' r' w1 = (w1, Fulfilled v))
    as Hcached.
  { intros v Hv parse' decode' r'. unfold readBodyAsJSON. by rewrite Hv. }
  unfold readBodyAsJSON in Hdec.
  destruct (__bodyjson w) as [v|] eqn:Ej.
  { injection Hdec as <- <-. split; [by apply Hcached|].
    split; [|done]. intros v' [= <-]. by apply Hcached. }
  destruct (readBodyAsText w) as [w' t] eqn:Et.
  pose proof (readBodyAsText_again _ _ _ Et) as Et'.
  assert (__bodyjson w' = None) as Ej'.
  { unfold readBodyAsText in Et. destruct (__bodytext w);
      [by injection Et as <- _|].
    destruct (wire_body w); injection Et as <- _; done. }
  assert (__bodytext w = None → wire_body w ≠ Pending →
          (∀ e, wire_body w ≠ Rejected e) →
          wire_body w' = Fulfilled EmptyString ∧ is_Some (__bodytext w'))
    as Hread.
  { unfold readBodyAsText in Et. intros Hnone Hp Hr. rewrite Hnone in Et.
    destruct (wire_body w) as [text|e|]; [|by destruct (Hr e)|done].
    injection Et as <- _. simpl. eauto. }
  assert (∀ res', res' = res → w1 = w' →
            (∀ v, res ≠ Fulfilled v) →
            readBodyAsJSON JSON_parse decodeURIComponent r w' = (w', res') →
            decode_body r w1 = (w1, res)
            ∧ (∀ v, res = Fulfilled v →
                 ∀ (parse' : string → Result string Json)
                   (decode' : string → Result X string) (r' : ServerRequest),
                   readBodyAsJSON parse' decode' r' w1 = (w1, Fulfilled v))
            ∧ (__bodytext w = None → wire_body w ≠ Pending →
               (∀ e, wire_body w ≠ Rejected e) → @None (BodyValue Json) = None →
               wire_body w1 = Fulfilled EmptyString ∧ is_Some (__bodytext w1)))
    as Hfail.
  { intros res' -> -> Hnot Hagain. split; [done|].
    split; [by intros v ?; destruct (Hnot v)|]. intros ? ? ? _. by apply Hread. }
  assert (∀ v, res = Fulfilled v → w1 = set_bodyjson v w' →
            decode_body r w1 = (w1, res)
            ∧ (∀ v, res = Fulfilled v →
                 ∀ (parse' : string → Result string Json)
                   (decode' : string → Result X string) (r' : ServerRequest),
                   readBodyAsJSON parse' decode' r' w1 = (w1, Fulfilled v))
            ∧ (__bodytext w = None → wire_body w ≠ Pending →
               (∀ e, wire_body w ≠ Rejected e) → @None (BodyValue Json) = None →
               wire_body w1 = Fulfilled EmptyString ∧ is_Some (__bodytext w1)))
    as Hgood.
  { intros v -> ->. split; [by apply Hcached|].
    split; [intros v' [= <-]; by apply Hcached|].
    intros ? ? ? _. by apply Hread. }
  destruct t as [text|e|].
  - destruct (bool_decide (headers_get r "Content-Type"
                           = Some "application/json")) eqn:B1.
    + destruct (JSON_parse text) as [j|msg] eqn:Ep; injection Hdec as <- <-.
      * by apply (Hgood (Parsed j)).
      * apply (Hfail (Rejected (JSONParseError msg))); try done.
        unfold readBodyAsJSON. by rewrite Ej', Et', B1, Ep.
    + destruct (bool_decide (headers_get r "Content-Type"
                  = Some "application/x-www-form-urlencoded")) eqn:B2.
      * destruct (decodeURIComponent text) as [d|x] eqn:Ed;
          injection Hdec as <- <-.
        -- by eapply Hgood.
        -- apply (Hfail (Rejected (Foreign x))); try done.
           unfold readBodyAsJSON. by rewrite Ej', Et', B1, B2, Ed.
      * injection Hdec as <- <-.
        eapply Hfail; try done.
        unfold readBodyAsJSON. by rewrite Ej', Et', B1, B2.
  - injection Hdec as <- <-. apply (Hfail (Rejected e)); try done.
    unfold readBodyAsJSON. by rewrite Ej', Et'.
  - injection Hdec as <- <-. apply (Hfail Pending); try done.
    unfold readBodyAsJSON. by rewrite Ej', Et'.
Qed.


End DecodeMore.

(** * Properties of the request readers *)

Section ReaderFacts.
Context {X : Type}.
Variable URL_new : string → Result (JsError X) URLRecord.

Abbreviation question := (ascii_of_nat 63).
Abbreviation hash_sign := (ascii_of_nat 35).
Abbreviation ampersand := (ascii_of_nat 38).

Implicit Types (r : ServerRequest) (d : Memo).

Lemma ensure_url_known r d (parser' : string → Result (JsError X) URLRecord)
    (u : URLRecord) :
  __url d = Some u → ensure_url parser' r d = (Ok u, d).
Proof. unfold ensure_url. by intros ->. Qed.

Lemma ensure_url_Ok r d (u : URLRecord) d1 :
  ensure_url URL_new r d = (Ok u, d1) →
  __url d1 = Some u ∧ __path d1 = __path d ∧ __search d1 = __search d
  ∧ __hash d1 = __hash d ∧ __cookie d1 = __cookie d.
Proof.
  unfold ensure_url. destruct (__url d) as [u'|] eqn:Eu.
  - by intros [= <- <-].
  - destruct (URL_new (url r)); [|done]. by intros [= <- <-].
Qed.

Lemma ensure_url_Throw r d (e : JsError X) d1 :
  ensure_url URL_new r d = (Throw e, d1) →
  d1 = d ∧ __url d = None ∧ URL_new (url r) = Throw e.
Proof.
  unfold ensure_url. destruct (__url d); [done|].
  destruct (URL_new (url r)) eqn:E; [done|]. by intros [= <- <-].
Qed.

(** X19. The URL of a request is parsed at most once.  A first successful
    [getPath], [getSearch] or [getHash] leaves the parsed URL on the
    request object; from then on none of the three consults the parser
    (any parser gives the same result) and none of them throws. *)
Theorem url_is_parsed_once r d :
  (∀ p d1, __path d = None → getPath URL_new r d = (Ok p, d1) →
           is_Some (__url d1))
  ∧ (∀ v d1, __search d = None → getSearch URL_new r d = (Ok v, d1) →
             is_Some (__url d1))
  ∧ (∀ v d1, __hash d = None → getHash URL_new r d = (Ok v, d1) →
             is_Some (__url d1))
  ∧ (is_Some (__url d) →
     ∀ parser' : string → Result (JsError X) URLRecord,
       getPath parser' r d = getPath URL_new r d
       ∧ getSearch parser' r d = getSearch URL_new r d
       ∧ getHash parser' r d = getHash URL_new r d
       ∧ (∃ p d1, getPath URL_new r d = (Ok p, d1))
       ∧ (∃ v d1, getSearch URL_new r d = (Ok v, d1))
       ∧ (∃ v d1, getHash URL_new r d = (Ok v, d1))).
Proof.
  split; [|split; [|split]].
  - intros p d1 Hn. unfold getPath. rewrite Hn.
    destruct (ensure_url URL_new r d) as [[u|e] d'] eqn:E; [|done].
    apply ensure_url_Ok in E as (Hu & _). intros [= _ <-]. simpl. by eexists.
  - intros v d1 Hn. unfold getSearch. rewrite Hn.
    destruct (ensure_url URL_new r d) as [[u|e] d'] eqn:E; [|done].
    apply ensure_url_Ok in E as (Hu & _). intros [= _ <-]. simpl. by eexists.
  - intros v d1 Hn. unfold getHash. rewrite Hn.
    destruct (ensure_url URL_new r d) as [[u|e] d'] eqn:E; [|done].
    apply ensure_url_Ok in E as (Hu & _). intros [= _ <-]. simpl. by eexists.
  - intros [u Hu] parser'. unfold getPath, getSearch, getHash.
    rewrite !(ensure_url_known r d _ u Hu).
    destruct (__path d), (__search d), (__hash d);
      repeat split; try done; by do 2 eexists.
Qed.

(** X20. A reader that throws changes nothing: [getPath], [getSearch] and
    [getHash] throw only the error of the URL parser, and leave the
    request object as it was, with no URL and no value cached by the
    call. *)
Theorem failed_read_caches_nothing r d (e : JsError X) d1 :
  (getPath URL_new r d = (Throw e, d1) →
   d1 = d ∧ URL_new (url r) = Throw e)
  ∧ (getSearch URL_new r d = (Throw e, d1) →
     d1 = d ∧ URL_new (url r) = Throw e)
  ∧ (getHash URL_new r d = (Throw e, d1) →
     d1 = d ∧ URL_new (url r) = Throw e).
Proof.
  unfold getPath, getSearch, getHash.
  destruct (ensure_url URL_new r d) as [[u|e'] d'] eqn:E.
  - destruct (__path d), (__search d), (__hash d); done.
  - apply ensure_url_Throw in E as (-> & _ & Hthrow).
    split; [|split].
    + destruct (__path d); [done|]. intros Heq. inversion Heq. by subst.
    + destruct (__search d); [done|]. intros Heq. inversion Heq. by subst.
    + destruct (__hash d); [done|]. intros Heq. inversion Heq. by subst.
Qed.



End ReaderFacts.

(** * Properties of [respondFile] *)

Section RespondFileFacts.
Context {X : Type}.
Variable existsSync : string → bool.
Variable stat_size : string → Result (JsError X) string.
Variable openSync : string → Result (JsError X) nat.
Variable extname : string → string.
Variable new_Headers :
  list (string * string) → Result (JsError X) (list (string * string)).
Variable respond_settles : FileResponse → Promise (JsError X) unit.

Abbreviation serve :=
  (respondFile existsSync stat_size openSync extname new_Headers
     respond_settles).

Lemma string_append_assoc (a b c : string) :
  (a +:+ b) +:+ c = a +:+ b +:+ c.
Proof.
  induction a as [|x a IH]; [done|].
  change (String x ((a +:+ b) +:+ c) = String x (a +:+ b +:+ c)).
  by rewrite IH.
Qed.

Lemma includes_string_unfold (needle s : string) :
  includes_string needle s
  = (starts_with needle s
     || match s with
        | EmptyString => false
        | String _ r => includes_string needle r
        end)%bool.
Proof. by destruct s. Qed.

Lemma starts_with_append (needle rest : string) :
  starts_with needle (needle +:+ rest) = true.
Proof.
  induction needle as [|c n IH]; simpl; [by destruct rest|].
  by rewrite Ascii.eqb_refl, IH.
Qed.

Lemma includes_string_append (before needle rest : string) :
  includes_string needle (before +:+ needle +:+ rest) = true.
Proof.
  induction before as [|c b IH].
  - change (EmptyString +:+ needle +:+ rest) with (needle +:+ rest).
    by rewrite includes_string_unfold, starts_with_append.
  - change (String c b +:+ needle +:+ rest)
      with (String c (b +:+ needle +:+ rest)).
    rewrite includes_string_unfold, IH. apply orb_true_r.
Qed.

(** X23. A path that holds [./] anywhere (every path that holds [../]
    does), and a path for which no file exists, get the response
    [{ status: 404 }] and nothing else: no file is opened, whatever the
    file system holds and whatever the options say. *)
Theorem not_found_opens_no_file (path : string) (options : option FileOptions)
    (w : FileWorld) :
  (∃ before rest, path = before +:+ "./" +:+ rest)
  ∨ (∃ before rest, path = before +:+ "../" +:+ rest)
  ∨ existsSync path = false →
  serve path options w
  = (mkFileWorld (sent w ++ [not_found]) (opened w) (closed w),
     respond_settles not_found).
Proof.
  intros Hcase. unfold respondFile.
  assert ((∃ before rest, path = before +:+ "./" +:+ rest)
          ∨ existsSync path = false) as [(a & b & ->)| Hmissing].
  { destruct Hcase as [?|[(a & b & ->)|?]]; [by left| |by right].
    left. exists (a +:+ "."), b. by rewrite string_append_assoc. }
  - rewrite includes_string_append, orb_true_r. done.
  - rewrite Hmissing. by destruct (_ || _)%bool.
Qed.

(** X24. [respondFile] closes what it opens and answers once: a call opens
    at most one file and hands at most one response to [req.respond]; once
    its promise has settled, fulfilled or rejected, every file it opened
    has been closed; and when the response promise is rejected, so is the
    promise of [respondFile], with the same error. *)
Theorem opened_file_is_closed (path : string) (options : option FileOptions)
    (w w' : FileWorld) (res : Promise (JsError X) unit) :
  serve path options w = (w', res) →
  (∃ files, (length files ≤ 1)%nat
            ∧ opened w' = opened w ++ files
            ∧ (res ≠ Pending → closed w' = closed w ++ files))
  ∧ (∃ resps, (length resps ≤ 1)%nat ∧ sent w' = sent w ++ resps
              ∧ ∀ resp e, resps = [resp] →
                          respond_settles resp = Rejected e →
                          res = Rejected e).
Proof.
  unfold respondFile, file_respond.
  assert (∀ resp, (mkFileWorld (sent w ++ [resp]) (opened w) (closed w),
                   respond_settles resp) = (w', res) →
            (∃ files, (length files ≤ 1)%nat
                      ∧ opened w' = opened w ++ files
                      ∧ (res ≠ Pending → closed w' = closed w ++ files))
            ∧ (∃ resps, (length resps ≤ 1)%nat ∧ sent w' = sent w ++ resps
                        ∧ ∀ resp e, resps = [resp] →
                                    respond_settles resp = Rejected e →
                                    res = Rejected e)) as H404.
  { intros resp [= <- <-]. simpl. split.
    - exists []. rewrite !app_nil_r. split; [simpl; lia|done].
    - exists [resp]. split; [simpl; lia|]. split; [done|].
      by intros ? e [= <-]. }
  assert (∀ e, (w, Rejected e) = (w', res) →
            (∃ files, (length files ≤ 1)%nat
                      ∧ opened w' = opened w ++ files
                      ∧ (res ≠ Pending → closed w' = closed w ++ files))
            ∧ (∃ resps, (length resps ≤ 1)%nat ∧ sent w' = sent w ++ resps
                        ∧ ∀ resp e, resps = [resp] →
                                    respond_settles resp = Rejected e →
                                    res = Rejected e)) as Hthrow.
  { intros e [= <- <-]. split.
    - exists []. rewrite !app_nil_r. split; [simpl; lia|done].
    - exists []. rewrite app_nil_r. split; [simpl; lia|done]. }
  destruct (_ || _)%bool; [apply H404|].
  destruct (existsSync path); [|apply H404].
  destruct (stat_size path) as [size|e]; [|apply Hthrow].
  destruct (openSync path) as [file|e]; [|apply Hthrow].
  destruct (new_Headers _) as [hs|e].
  - destruct (respond_settles _) as [[]|e|] eqn:Es; intros [= <- <-]; simpl.
    all: split; [exists [file]; split; [simpl; lia|done]|].
    all: eexists [_]; split; [simpl; lia|]; split; [done|].
    all: intros resp e' [= <-]; congruence.
  - intros [= <- <-]. simpl. split.
    + exists [file]. split; [simpl; lia|done].
    + exists []. rewrite app_nil_r. split; [simpl; lia|done].
Qed.

End RespondFileFacts.

(** * The further properties at concrete inputs *)

Section ConcreteMore.
Import JSString.

Lemma sample_table_built : built sample_table.
Proof.
  eapply (built_add GET "/b/:id/c" (note "c" true) []);
    [eapply (built_add GET "/b/:id" (note "b1" false) [note "b2" true]);
       [eapply (built_add GET "/a" (note "a" true) []);
          [apply built_new|reflexivity]
       |reflexivity]
    |reflexivity].
Qed.

Lemma sample_table_plain :
  ∀ it, it ∈ _routes sample_table → star_only_as_wildcard (_pattern it).
Proof.
  intros it Hit piece Hpiece Hcolon Hstar.
  apply list_elem_of_In in Hit. apply list_elem_of_In in Hpiece.
  simpl in Hit. destruct Hit as [<-|[<-|[<-|[]]]]; vm_compute in Hpiece.
  - destruct Hpiece as [<-|[]]. vm_compute in Hcolon. lia.
  - destruct Hpiece as [<-|[<-|[]]]; [vm_compute in Hcolon|vm_compute in Hstar];
      lia.
  - destruct Hpiece as [<-|[<-|[<-|[]]]];
      [vm_compute in Hcolon|vm_compute in Hstar|vm_compute in Hcolon]; lia.
Qed.

Lemma registered_routes_unambiguous_witness :
  ¬ (matches_ok (matches route_a "GET" ["b"; "7"]) = true
     ∧ matches_ok (matches route_b "GET" ["b"; "7"]) = true).
Proof.
  refine (registered_routes_unambiguous sample_table 0 1 route_a route_b
            "GET" ["b"; "7"] sample_table_built sample_table_plain _
            eq_refl eq_refl).
  discriminate.
Defined.


Lemma slashes_only_separate_witness :
  compiled_shape (RouterItem_new (X:=unit) GET "/a/b" tt [])
  = compiled_shape (RouterItem_new (X:=unit) GET "a//b/" tt []).
Proof.
  refine (proj1 (slashes_only_separate (X:=unit) GET "/a/b" "a//b/" tt tt
                   [] [] _ _ eq_refl)); discriminate.
Defined.

Lemma parts_spell_the_pieces_witness :
  Forall2 (fun piece p => piece = unparse p
                          ∨ (piece = "*" ∧ p = mkPart "*" true))
          (segments "/b/:id/*")
          [mkPart "b" false; mkPart "id" true; mkPart "*" true].
Proof.
  exact (proj1 (parts_spell_the_pieces (X:=unit) GET "/b/:id/*" tt [] _
                  eq_refl)).
Defined.

Lemma literal_pattern_matches_itself_witness :
  matches_ok (matches (mkItem GET "/a/b" [tt]
                         [mkPart "a" false; mkPart "b" false] false)
                "get" ["a"; "b"]) = true
  ↔ toUpperCase "get" = method_string GET ∧ ["a"; "b"] = segments "/a/b".
Proof.
  refine (proj1 (literal_pattern_matches_itself (X:=unit) GET "/a/b" tt []
                   _ "get" ["a"; "b"] eq_refl _)).
  repeat constructor.
Defined.


Lemma built_table_invariants_witness :
  (∀ i j a b, i ≠ j → _routes sample_table !! i = Some a →
              _routes sample_table !! j = Some b → conflicts a b = false)
  ∧ (∀ it, it ∈ _routes sample_table →
       ∃ h t, RouterItem_new (X:=unit) (_method it) (_pattern it) h t = Ok it
              ∧ _handlers it = h :: t).
Proof. exact (built_table_invariants sample_table sample_table_built). Defined.

Lemma only_matching_route_is_dispatched_witness :
  process plain_path sample_table (sample_request "GET" "/b/7") tt []
  = (["b1"],
     [mkInv 1 0 (mkContext (sample_request "GET" "/b/7") tt
                   {["id" := Str "7"]})],
     Fulfilled true).
Proof.
  exact (only_matching_route_is_dispatched plain_path sample_table
           (sample_request "GET" "/b/7") tt [] "/b/7" 1 route_b
           sample_table_built sample_table_plain eq_refl eq_refl eq_refl).
Defined.

Lemma handler_error_reaches_caller_witness :
  process plain_path faulty_table (sample_request "POST" "/a") tt []
  = (["x"; "boom"],
     [mkInv 1 0 (mkContext (sample_request "POST" "/a") tt ∅)]
     ++ [mkInv 1 1 (mkContext (sample_request "POST" "/a") tt ∅)],
     Rejected (Error "boom")).
Proof.
  refine (handler_error_reaches_caller plain_path faulty_table
            (sample_request "POST" "/a") tt [] ["x"] ["x"; "boom"] "/a"
            [route_a] [] _ [note "x" true] [note "y" true]
            (failing_note "boom") _ (Error "boom")
            eq_refl eq_refl _ eq_refl eq_refl eq_refl eq_refl).
  constructor; [reflexivity|constructor].
Defined.

Lemma handled_means_a_handler_ran_witness :
  ∃ k context rest,
    [mkInv 1 0 (mkContext (sample_request "GET" "/b/7") tt
                  {["id" := Str "7"]})]
    = mkInv k 0 context :: rest.
Proof.
  exact (handled_means_a_handler_ran plain_path sample_table
           (sample_request "GET" "/b/7") tt [] ["b1"] _
           sample_table_built eq_refl).
Defined.

Lemma registration_throws_only_when_witness :
  malformed ""
  ∨ ∃ it i, RouterItem_new (X:=unit) GET "" (note "a" true) [] = Ok it
            ∧ i ∈ _routes sample_table ∧ conflicts it i = true.
Proof.
  exact (registration_throws_only_when GET "" (note "a" true) []
           sample_table sample_table
           (Error "pattern length must be greater than 0") eq_refl).
Defined.




Lemma readBodyAsJSON_computed_once_witness :
  readBodyAsJSON strict_parse lenient_decode json_request
    (readBodyAsJSON strict_parse lenient_decode json_request
       (json_world "{}")).1
  = readBodyAsJSON strict_parse lenient_decode json_request (json_world "{}").
Proof.
  exact (proj1 (readBodyAsJSON_computed_once strict_parse lenient_decode
                  json_request (json_world "{}") _ _ eq_refl)).
Defined.



Lemma not_found_opens_no_file_witness :
  respondFile one_file_exists one_file_size one_file_open html_extname
    any_headers write_fails "public/../secret.html" None idle_files
  = (mkFileWorld [not_found] [] [], write_fails not_found).
Proof.
  refine (not_found_opens_no_file one_file_exists one_file_size one_file_open
            html_extname any_headers write_fails "public/../secret.html"
            None idle_files _).
  right. left. by exists "public/", "secret.html".
Defined.

Lemma opened_file_is_closed_witness :
  (∃ files, (length files ≤ 1)%nat
            ∧ [7%nat] = [] ++ files
            ∧ (Rejected (Error "Broken pipe")
               ≠ (Pending : Promise (JsError unit) unit) →
               [7%nat] = [] ++ files))
  ∧ (∃ resps, (length resps ≤ 1)%nat
              ∧ [mkFileResponse (Some 200%nat) (Some 7%nat)
                   (Some [("Content-Length", "12");
                          ("Content-Type", "text/html")])]
                = [] ++ resps
              ∧ ∀ resp e, resps = [resp] → write_fails resp = Rejected e →
                          Rejected (Error "Broken pipe")
                          = (Rejected e : Promise (JsError unit) unit)).
Proof.
  exact (opened_file_is_closed one_file_exists one_file_size one_file_open
           html_extname any_headers write_fails "public/index.html" None
           idle_files
           (mkFileWorld
              [mkFileResponse (Some 200%nat) (Some 7%nat)
                 (Some [("Content-Length", "12");
                        ("Content-Type", "text/html")])]
              [7%nat] [7%nat])
           (Rejected (Error "Broken pipe")) eq_refl).
Defined.

End ConcreteMore.
